(** * gibMacOS GUI: chunklist verification and the retrying downloader

    A shallow embedding of [src/utils/file_verification.py]
    ([FileVerification.verify_chunklist],
    [FileVerification.verify_file_against_chunklist],
    [FileVerification.calculate_file_hash],
    [FileVerification.verify_file_hash]), of [src/downloader.py]
    ([Downloader.get_string], [Downloader.get_bytes],
    [Downloader.stream_to_file], [Downloader.test_url_accessibility]) and
    of the download loop of [src/backend/gibmacos_backend.py]
    ([GibMacOSBackend.download_prod]), with the properties of the
    specification stated and settled against them, and further
    properties of the same code.

    Python byte strings are [list byte]; Python integers are [Z];
    the file system is a finite map from paths to nodes; exceptions are an
    inductive type and every operation that may raise returns a [result]. *)

From Stdlib Require Import ZArith Lia Strings.Byte.
From stdpp Require Import base numbers list strings gmap.

Local Open Scope Z_scope.

(** ** Bytes and integers *)

Module Bytes.

Definition bytes := list byte.

#[global] Instance byte_eq_decision : EqDecision byte := Byte.byte_eq_dec.

Definition byte_to_Z (b : byte) : Z := Z.of_N (Byte.to_N b).

(** The byte whose value is [z mod 256]. *)
Definition byte_of_Z (z : Z) : byte :=
  match Byte.of_N (Z.to_N (z mod 256)) with
  | Some b => b
  | None => x00
  end.

Definition of_Zs (l : list Z) : bytes := map byte_of_Z l.

(** [len(b)] as a Python integer. *)
Definition len (b : bytes) : Z := Z.of_nat (length b).

(** [int.from_bytes(b, "big")]. *)
Definition int_from_bytes_big (b : bytes) : Z :=
  fold_left (fun acc x => acc * 256 + byte_to_Z x) b 0.

(** [int.from_bytes(b, "little")]. *)
Fixpoint int_from_bytes_little (b : bytes) : Z :=
  match b with
  | [] => 0
  | x :: b' => byte_to_Z x + 256 * int_from_bytes_little b'
  end.

(** [v.to_bytes(n, "little")] and [v.to_bytes(n, "big")], used to lay out
    manifests in the examples. *)
Fixpoint int_to_bytes_little (n : nat) (v : Z) : bytes :=
  match n with
  | O => []
  | S n' => byte_of_Z v :: int_to_bytes_little n' (v / 256)
  end.

Definition int_to_bytes_big (n : nat) (v : Z) : bytes :=
  rev (int_to_bytes_little n v).

(** The bytes of an ASCII string literal ([b"CNKL"]). *)
Definition of_string (s : string) : bytes := String.list_byte_of_string s.

(** [f.read(n)] on the unread part [l] of a file: at most [n] bytes, and
    what is left.  A count that is not positive reads nothing (the
    counts read in this program are unsigned). *)
Fixpoint read_bytes (n : Z) (l : bytes) : bytes * bytes :=
  match l with
  | [] => ([], [])
  | x :: l' =>
      if n <=? 0 then ([], l)
      else let '(got, rest) := read_bytes (n - 1) l' in (x :: got, rest)
  end.

End Bytes.
Import Bytes.

(** ** SHA-256 ([hashlib.sha256])

    The hash of the Python standard library, written out so that the model
    runs on concrete manifests.  The round constants are derived, as the
    standard defines them, from the square and cube roots of the first
    primes. *)

Module SHA256.

Definition w32 (x : Z) : Z := x mod 2 ^ 32.

Definition add32 (x y : Z) : Z := w32 (x + y).

Definition rotr (n x : Z) : Z :=
  Z.lor (Z.shiftr x n) (w32 (Z.shiftl x (32 - n))).

Definition not32 (x : Z) : Z := Z.lxor x (2 ^ 32 - 1).

Definition Ch (x y z : Z) : Z := Z.lxor (Z.land x y) (Z.land (not32 x) z).

Definition Maj (x y z : Z) : Z :=
  Z.lxor (Z.lxor (Z.land x y) (Z.land x z)) (Z.land y z).

Definition Sigma0 (x : Z) : Z := Z.lxor (Z.lxor (rotr 2 x) (rotr 13 x)) (rotr 22 x).
Definition Sigma1 (x : Z) : Z := Z.lxor (Z.lxor (rotr 6 x) (rotr 11 x)) (rotr 25 x).
Definition sigma0 (x : Z) : Z := Z.lxor (Z.lxor (rotr 7 x) (rotr 18 x)) (Z.shiftr x 3).
Definition sigma1 (x : Z) : Z := Z.lxor (Z.lxor (rotr 17 x) (rotr 19 x)) (Z.shiftr x 10).

Definition primes64 : list Z :=
  [2; 3; 5; 7; 11; 13; 17; 19; 23; 29; 31; 37; 41; 43; 47; 53;
   59; 61; 67; 71; 73; 79; 83; 89; 97; 101; 103; 107; 109; 113; 127; 131;
   137; 139; 149; 151; 157; 163; 167; 173; 179; 181; 191; 193; 197; 199;
   211; 223; 227; 229; 233; 239; 241; 251; 257; 263; 269; 271; 277; 281;
   283; 293; 307; 311].

(** Integer cube root, one bit at a time from bit [b - 1] down. *)
Fixpoint icbrt_bits (b : nat) (x r : Z) : Z :=
  match b with
  | O => r
  | S b' =>
      let r' := r + 2 ^ Z.of_nat b' in
      icbrt_bits b' x (if r' * r' * r' <=? x then r' else r)
  end.

Definition icbrt (x : Z) : Z := icbrt_bits 48 x 0.

(** First 32 bits of the fractional part of the cube root of each prime. *)
Definition K : list Z :=
  Eval vm_compute in map (fun p => w32 (icbrt (p * 2 ^ 96))) primes64.

(** First 32 bits of the fractional part of the square root of the first
    eight primes. *)
Definition H0 : list Z :=
  Eval vm_compute in map (fun p => w32 (Z.sqrt (p * 2 ^ 64))) (take 8 primes64).

Record state := State { sa : Z; sb : Z; sc : Z; sd : Z; se : Z; sf : Z; sg : Z; sh : Z }.

Definition init : state :=
  match H0 with
  | [a; b; c; d; e; f; g; h] => State a b c d e f g h
  | _ => State 0 0 0 0 0 0 0 0
  end.

(** One round: [w] holds the message schedule words [W_t .. W_(t+15)]. *)
Definition round (sw : state * list Z) (k : Z) : state * list Z :=
  let '(s, w) := sw in
  let wt := nth 0 w 0 in
  let t1 := w32 (sh s + Sigma1 (se s) + Ch (se s) (sf s) (sg s) + k + wt) in
  let t2 := w32 (Sigma0 (sa s) + Maj (sa s) (sb s) (sc s)) in
  let wnext := w32 (sigma1 (nth 14 w 0) + nth 9 w 0 + sigma0 (nth 1 w 0) + wt) in
  (State (add32 t1 t2) (sa s) (sb s) (sc s) (add32 (sd s) t1) (se s) (sf s) (sg s),
   tail w ++ [wnext]).

Fixpoint words_of (n : nat) (b : bytes) : list Z :=
  match n with
  | O => []
  | S n' => int_from_bytes_big (take 4 b) :: words_of n' (drop 4 b)
  end.

Definition compress (s : state) (block : bytes) : state :=
  let '(s', _) := fold_left round K (s, words_of 16 block) in
  State (add32 (sa s) (sa s')) (add32 (sb s) (sb s')) (add32 (sc s) (sc s'))
        (add32 (sd s) (sd s')) (add32 (se s) (se s')) (add32 (sf s) (sf s'))
        (add32 (sg s) (sg s')) (add32 (sh s) (sh s')).

Definition pad (m : bytes) : bytes :=
  let l := Z.of_nat (length m) in
  m ++ [x80] ++ replicate (Z.to_nat ((55 - l) mod 64)) x00
    ++ int_to_bytes_big 8 (8 * l).

Fixpoint blocks (n : nat) (s : state) (b : bytes) : state :=
  match n with
  | O => s
  | S n' => blocks n' (compress s (take 64 b)) (drop 64 b)
  end.

Definition output (s : state) : bytes :=
  int_to_bytes_big 4 (sa s) ++ int_to_bytes_big 4 (sb s) ++
  int_to_bytes_big 4 (sc s) ++ int_to_bytes_big 4 (sd s) ++
  int_to_bytes_big 4 (se s) ++ int_to_bytes_big 4 (sf s) ++
  int_to_bytes_big 4 (sg s) ++ int_to_bytes_big 4 (sh s).

(** [hashlib.sha256(m).digest()]. *)
Definition sha256 (m : bytes) : bytes :=
  let p := pad m in
  output (blocks (length p / 64)%nat init p).

End SHA256.

(** ** Modular exponentiation (Python's three-argument [pow]) *)

Module ModExp.

(** Square and multiply over the binary digits of the exponent. *)
Fixpoint pow_mod_pos (a : Z) (e : positive) (m : Z) : Z :=
  match e with
  | xH => a mod m
  | xO e' => let r := pow_mod_pos a e' m in (r * r) mod m
  | xI e' => let r := pow_mod_pos a e' m in ((r * r) mod m * a) mod m
  end.

(** [pow(a, e, m)] for a non-negative exponent (the only call passes the
    constant [0x10001]). *)
Definition pow_mod (a e m : Z) : Z :=
  match e with
  | Z0 => 1 mod m
  | Zpos p => pow_mod_pos a p m
  | Zneg _ => 0
  end.

End ModExp.
Import ModExp.

(** ** Exceptions and results *)

Inductive exn : Type :=
| FileNotFoundError (msg : string)
| IsADirectoryError (msg : string)
| ValueError (msg : string)
| RuntimeError (msg : string).

Inductive result (A : Type) : Type :=
| Ok (a : A)
| Raised (e : exn).
Arguments Ok {A} a.
Arguments Raised {A} e.

(** ** The file system *)

Inductive node : Type :=
| File (content : bytes)
| Dir.

Abbreviation filesystem := (gmap string node).

(** [os.path.exists(path)] *)
Definition path_exists (fs : filesystem) (path : string) : bool :=
  bool_decide (is_Some (fs !! path)).

(** An open binary file: the bytes not read yet, and whether the handle has
    been closed. *)
Record file_obj : Type := FileObj { unread : bytes; closed : bool }.

(** [open(path, "rb")] *)
Definition open_rb (fs : filesystem) (path : string) : result file_obj :=
  match fs !! path with
  | None => Raised (FileNotFoundError ("No such file or directory: " +:+ path))
  | Some Dir => Raised (IsADirectoryError ("Is a directory: " +:+ path))
  | Some (File content) => Ok (FileObj content false)
  end.

(** [f.read(n)]: reading a closed file raises [ValueError]. *)
Definition read (n : Z) (f : file_obj) : result (bytes * file_obj) :=
  if closed f then Raised (ValueError "read of closed file")
  else let '(got, rest) := read_bytes n (unread f) in Ok (got, FileObj rest false).

(** Leaving a [with open(...) as f] block. *)
Definition close (f : file_obj) : file_obj := FileObj (unread f) true.

(** ** Generators

    A generator that has been run: the values it yields, in order, ending
    in a normal return ([Stop], [StopIteration] for the consumer) or in an
    exception.  The consumer walks this structure from the front; what lies
    behind the point where it stops is never observed. *)

Inductive generator (Y : Type) : Type :=
| Yield (y : Y) (next : generator Y)
| Stop
| Throw (e : exn).
Arguments Yield {Y} y next.
Arguments Stop {Y}.
Arguments Throw {Y} e.

(** The values yielded before the generator ends. *)
Fixpoint yields {Y} (g : generator Y) : list Y :=
  match g with
  | Yield y next => y :: yields next
  | Stop | Throw _ => []
  end.

(** How the generator ends once driven to exhaustion. *)
Fixpoint ending {Y} (g : generator Y) : result unit :=
  match g with
  | Yield _ next => ending next
  | Stop => Ok tt
  | Throw e => Raised e
  end.

(** ** [FileVerification] *)

Module FileVerification.

(** Apple's public key for signature verification. *)
Definition APPLE_EFI_ROM_PUBLIC_KEY_1 : Z :=
  0xC3E748CAD9CD384329E10E25A91E43E1A762FF529ADE578C935BDDF9B13F2179D4855E6FC89E9E29CA12517D17DFA1EDCE0BEBF0EA7B461FFE61D94E2BDF72C196F89ACD3536B644064014DAE25A15DB6BB0852ECBD120916318D1CCDEA3C84C92ED743FC176D0BACA920D3FCF3158AFF731F88CE0623182A8ED67E650515F75745909F07D415F55FC15A35654D118C55A462D37A3ACDA08612F3F3F6571761EFCCBCC299AEE99B3A4FD6212CCFFF5EF37A2C334E871191F7E1C31960E010A54E86FA3F62E6D6905E1CD57732410A3EB0C6B4DEFDABE9F59BF1618758C751CD56CEF851D1C0EAA1C558E37AC108DA9089863D20E2E7E4BF475EC66FE6B3EFDCF.

Definition hex_digit (c : Ascii.ascii) : Z :=
  let n := Z.of_N (Ascii.N_of_ascii c) in
  if (48 <=? n) && (n <=? 57) then n - 48
  else if (97 <=? n) && (n <=? 102) then n - 87
  else if (65 <=? n) && (n <=? 70) then n - 55
  else 0.

(** [int(s, 16)] for a string of hexadecimal digits. *)
Definition int_of_hex (s : string) : Z :=
  fold_left (fun acc c => acc * 16 + hex_digit c) (String.list_ascii_of_string s) 0.

(** ["c" * n] *)
Fixpoint str_repeat (c : string) (n : nat) : string :=
  match n with
  | O => EmptyString
  | S n' => c +:+ str_repeat c n'
  end.

(** [struct.Struct("<4sIBBBxQQQ")] and [struct.Struct("<I32s")]. *)
Definition CHUNKLIST_HEADER_size : Z := 36.
Definition CHUNK_size : Z := 36.

Record chunklist_header : Type := ChunklistHeader {
  magic : bytes;
  header_size : Z;
  file_version : Z;
  chunk_method : Z;
  signature_method : Z;
  chunk_count : Z;
  chunk_offset : Z;
  signature_offset : Z
}.

(** The bytes [off, off + n) of a record. *)
Definition field (off n : nat) (data : bytes) : bytes := take n (drop off data).

(** [CHUNKLIST_HEADER.unpack(data)]: little-endian, no alignment; the
    byte at offset 11 is padding. *)
Definition CHUNKLIST_HEADER_unpack (data : bytes) : chunklist_header :=
  {| magic := field 0 4 data;
     header_size := int_from_bytes_little (field 4 4 data);
     file_version := int_from_bytes_little (field 8 1 data);
     chunk_method := int_from_bytes_little (field 9 1 data);
     signature_method := int_from_bytes_little (field 10 1 data);
     chunk_count := int_from_bytes_little (field 12 8 data);
     chunk_offset := int_from_bytes_little (field 20 8 data);
     signature_offset := int_from_bytes_little (field 28 8 data) |}.

(** [CHUNK.unpack(data)] *)
Definition CHUNK_unpack (data : bytes) : Z * bytes :=
  (int_from_bytes_little (field 0 4 data), field 4 32 data).

(** The integer the signature bytes stand for. *)
Definition signature_int (data : bytes) : Z := int_from_bytes_little data.

(** The value the signature must open to: the fixed padding with the
    digest in its low 256 bits. *)
Definition plaintext (digest : bytes) : Z :=
  Z.lor
    (int_of_hex ("1" +:+ str_repeat "f" 404
                 +:+ "003031300d060960864801650304020105000420"
                 +:+ str_repeat "0" 64))
    (int_from_bytes_big digest).

(** The end of [verify_chunklist]: [if f.read(1): raise ...]. *)
Definition check_end (f : bytes) : generator (Z * bytes) :=
  let '(data, _) := read_bytes 1 f in
  if decide (data <> []) then Throw (ValueError "Invalid chunklist: extra data after signature")
  else Stop.

(** [verify_chunklist] after its loop: the signature. [f] is the unread
    part of the manifest, [hash_ctx] the bytes fed to the running hash. *)
Definition verify_signature (sig_method : Z) (f : bytes) (hash_ctx : bytes)
  : generator (Z * bytes) :=
  let digest := SHA256.sha256 hash_ctx in
  if decide (sig_method = 1) then
    let '(data, f) := read_bytes 256 f in
    if decide (len data <> 256) then
      Throw (ValueError "Invalid chunklist: signature truncated")
    else
      let signature := signature_int data in
      if decide (pow_mod signature 0x10001 APPLE_EFI_ROM_PUBLIC_KEY_1 <> plaintext digest)
      then Throw (ValueError "Invalid chunklist: signature verification failed")
      else check_end f
  else if decide (sig_method = 2) then
    let '(data, f) := read_bytes 32 f in
    if decide (data <> digest) then
      Throw (ValueError "Invalid chunklist: hash verification failed")
    else Throw (RuntimeError "Chunklist missing digital signature")
  else check_end f.

(** [for _ in range(chunk_count)]: [n] iterations remain. *)
Fixpoint read_chunks (n : nat) (sig_method : Z) (f : bytes) (hash_ctx : bytes)
  : generator (Z * bytes) :=
  match n with
  | O => verify_signature sig_method f hash_ctx
  | S n' =>
      let '(data, f) := read_bytes CHUNK_size f in
      if decide (len data <> CHUNK_size) then
        Throw (ValueError "Invalid chunklist: chunk data truncated")
      else
        let hash_ctx := hash_ctx ++ data in
        Yield (CHUNK_unpack data) (read_chunks n' sig_method f hash_ctx)
  end.

(** [verify_chunklist] from the header on; [f] is the whole manifest. *)
Definition verify_open_chunklist (f : bytes) : generator (Z * bytes) :=
  let '(data, f) := read_bytes CHUNKLIST_HEADER_size f in
  if decide (len data <> CHUNKLIST_HEADER_size) then
    Throw (ValueError "Invalid chunklist: header too short")
  else
    let hash_ctx := data in
    let h := CHUNKLIST_HEADER_unpack data in
    if decide (magic h <> of_string "CNKL") then
      Throw (ValueError "Invalid chunklist: wrong magic number")
    else if decide (header_size h <> CHUNKLIST_HEADER_size) then
      Throw (ValueError "Invalid chunklist: wrong header size")
    else if decide (file_version h <> 1) then
      Throw (ValueError "Invalid chunklist: unsupported file version")
    else if decide (chunk_method h <> 1) then
      Throw (ValueError "Invalid chunklist: unsupported chunk method")
    else if decide (signature_method h ∉ [1; 2]) then
      Throw (ValueError "Invalid chunklist: unsupported signature method")
    else if decide (chunk_count h <= 0) then
      Throw (ValueError "Invalid chunklist: invalid chunk count")
    else if decide (chunk_offset h <> 0x24) then
      Throw (ValueError "Invalid chunklist: wrong chunk offset")
    else if decide (signature_offset h <> chunk_offset h + CHUNK_size * chunk_count h) then
      Throw (ValueError "Invalid chunklist: wrong signature offset")
    else
      read_chunks (Z.to_nat (chunk_count h)) (signature_method h) f hash_ctx.

Definition verify_chunklist (fs : filesystem) (chunklist_path : string)
  : generator (Z * bytes) :=
  if negb (path_exists fs chunklist_path) then
    Throw (FileNotFoundError ("Chunklist file not found: " +:+ chunklist_path))
  else
    match open_rb fs chunklist_path with
    | Raised e => Throw e
    | Ok f => verify_open_chunklist (unread f)
    end.

(** How the [for] loop of [verify_file_against_chunklist] is left. *)
Inductive loop_exit : Type :=
| LoopReturn (b : bool)
| LoopRaise (e : exn)
| LoopDone (f : file_obj).

(** [for chunk_size, expected_hash in self.verify_chunklist(...)] *)
Fixpoint for_chunks (g : generator (Z * bytes)) (f : file_obj) : loop_exit :=
  match g with
  | Yield (chunk_size, expected_hash) next =>
      match read chunk_size f with
      | Raised e => LoopRaise e
      | Ok (chunk_data, f) =>
          if decide (len chunk_data <> chunk_size) then LoopReturn false
          else
            let chunk_hash := SHA256.sha256 chunk_data in
            if decide (chunk_hash <> expected_hash) then LoopReturn false
            else for_chunks next f
      end
  | Stop => LoopDone f
  | Throw e => LoopRaise e
  end.

(** The body of the [try] block. *)
Definition verify_file_try (fs : filesystem) (file_path chunklist_path : string)
  : result bool :=
  match open_rb fs file_path with
  | Raised e => Raised e
  | Ok f =>
      match for_chunks (verify_chunklist fs chunklist_path) f with
      | LoopReturn b => Ok b
      | LoopRaise e => Raised e
      | LoopDone f =>
          (* the [with] block has ended here, so [f] is closed *)
          let f := close f in
          match read 1 f with
          | Raised e => Raised e
          | Ok (data, _) => if decide (data <> []) then Ok false else Ok true
          end
      end
  end.

Definition verify_file_against_chunklist (fs : filesystem)
    (file_path chunklist_path : string) : result bool :=
  if negb (path_exists fs file_path) then
    Raised (FileNotFoundError ("File not found: " +:+ file_path))
  else
    match verify_file_try fs file_path chunklist_path with
    | Ok b => Ok b
    | Raised _ => Ok false
    end.

End FileVerification.

(** ** The chunklist format, for the statements *)

Module ChunklistFormat.
Import FileVerification.

(** The header checks of [verify_chunklist], all passing. *)
Definition header_ok (h : chunklist_header) : Prop :=
  magic h = of_string "CNKL" /\ header_size h = 36 /\ file_version h = 1 /\
  chunk_method h = 1 /\ (signature_method h = 1 \/ signature_method h = 2) /\
  0 < chunk_count h /\ chunk_offset h = 36 /\
  signature_offset h = 36 + 36 * chunk_count h.

(** The messages of the errors raised on a bad header. *)
Definition header_errors : list string :=
  ["Invalid chunklist: header too short";
   "Invalid chunklist: wrong magic number";
   "Invalid chunklist: wrong header size";
   "Invalid chunklist: unsupported file version";
   "Invalid chunklist: unsupported chunk method";
   "Invalid chunklist: unsupported signature method";
   "Invalid chunklist: invalid chunk count";
   "Invalid chunklist: wrong chunk offset";
   "Invalid chunklist: wrong signature offset"].

(** The records of a chunk table of [n] entries. *)
Fixpoint records (n : nat) (table : bytes) : list bytes :=
  match n with
  | O => []
  | S n' => take 36 table :: records n' (drop 36 table)
  end.

(** [CHUNKLIST_HEADER.pack(b"CNKL", 36, 1, 1, sm, count, off, sigoff)] *)
Definition pack_header (sm count off sigoff : Z) : bytes :=
  of_string "CNKL" ++ int_to_bytes_little 4 36 ++ of_Zs [1; 1; sm; 0]
    ++ int_to_bytes_little 8 count ++ int_to_bytes_little 8 off
    ++ int_to_bytes_little 8 sigoff.

(** [CHUNK.pack(len(data), sha256(data))] *)
Definition pack_chunk (data : bytes) : bytes :=
  int_to_bytes_little 4 (len data) ++ SHA256.sha256 data.

(** The 19 bytes that announce a SHA-256 digest in a PKCS#1 v1.5
    signature: the DER [DigestInfo] header with the SHA-256 object
    identifier. *)
Definition sha256_digest_info : bytes :=
  of_Zs [0x30; 0x31; 0x30; 0x0d; 0x06; 0x09; 0x60; 0x86; 0x48; 0x01; 0x65;
         0x03; 0x04; 0x02; 0x01; 0x05; 0x00; 0x04; 0x20].

(** The 224 bytes before the digest: [00 01 FF .. FF 00] and the
    [DigestInfo] header. *)
Definition pkcs1_padding : bytes :=
  [x00; x01] ++ replicate 202 xff ++ [x00] ++ sha256_digest_info.

(** The PKCS#1 v1.5 encoding of a SHA-256 digest for a 2048-bit key. *)
Definition pkcs1_encode (digest : bytes) : bytes := pkcs1_padding ++ digest.

End ChunklistFormat.

(** ** Manifests and files for the examples *)

Module Fixtures.
Import FileVerification ChunklistFormat.

Definition abc : bytes := of_string "abc".

(** A header for one chunk and the record of the chunk ["abc"]. *)
Definition header_1 (sm : Z) : bytes := pack_header sm 1 36 72.
Definition table_abc : bytes := pack_chunk abc.

(** A manifest of signature method 2 whose trailing hash is right. *)
Definition hash_abc : bytes := SHA256.sha256 (header_1 2 ++ table_abc).
Definition manifest_hashed : bytes := header_1 2 ++ table_abc ++ hash_abc ++ [].

(** The same with one byte after the hash. *)
Definition manifest_hashed_extra : bytes := header_1 2 ++ table_abc ++ hash_abc ++ [x00].

(** A manifest of signature method 1 whose signature is 256 bytes that
    Apple never signed. *)
Definition sig_ones : bytes := replicate 256 x01.
Definition manifest_signed : bytes := header_1 1 ++ table_abc ++ sig_ones ++ [].

(** The same with one byte after the signature. *)
Definition manifest_signed_extra : bytes := header_1 1 ++ table_abc ++ sig_ones ++ [x00].

(** A header that declares no chunks, everything else being in order. *)
Definition header_empty : bytes := pack_header 1 0 36 36.

(** A header with a wrong magic number. *)
Definition header_bad_magic : bytes :=
  of_string "XNKL" ++ drop 4 (header_1 1).

(** A signature whose first byte is 1 and whose other bytes are 0. *)
Definition sig_one : bytes := x01 :: replicate 255 x00.

Definition fs : filesystem :=
  {[ "image.dmg" := File abc;
     "hashed.chunklist" := File manifest_hashed;
     "extra.chunklist" := File manifest_hashed_extra;
     "signed.chunklist" := File manifest_signed;
     "signed_extra.chunklist" := File manifest_signed_extra;
     "empty.chunklist" := File (header_empty ++ []);
     "magic.chunklist" := File (header_bad_magic ++ []);
     "folder" := Dir ]}.

End Fixtures.

(** ** [Downloader] *)

Module Downloader.

(** *** The network *)

Inductive http_method : Type := GET | HEAD.

(** A request of the session: the fixed headers of the downloader are left
    out, [range_start] is the [n] of a [Range: bytes=n-] header. *)
Record request : Type := Request {
  meth : http_method;
  req_url : string;
  range_start : option Z
}.

(** The exceptions the downloader tells apart, by the [except] clause that
    catches them. *)
Inductive py_exn : Type :=
| HTTPError (code : Z)      (* raised by [raise_for_status] *)
| ConnectionError
| Timeout
| RequestException          (* any other exception of [requests] *)
| OtherException.           (* any other [Exception] *)

Definition is_RequestException (e : py_exn) : bool :=
  match e with
  | OtherException => false
  | _ => true
  end.

(** The [Content-Length] header of a response. *)
Inductive header_value : Type :=
| Absent
| NotAnInteger
| Integer (n : Z).

(** A body arrives as the chunks [iter_content] hands out, and ends well
    or with an exception raised in the middle of the stream. *)
Inductive stream_end : Type :=
| EndOfBody
| Broken (e : py_exn).

Record response : Type := Response {
  status_code : Z;
  content_length : header_value;
  body : list bytes;
  body_end : stream_end
}.

Inductive reply : Type :=
| Replied (r : response)
| Failed (e : py_exn).

(** The server: its answer to a request, given how many requests were
    sent before it. *)
Definition server := nat -> request -> reply.

(** *** The state *)

Inductive event : Type :=
| Sent (r : request) (on_disk : gmap string bytes)  (* the disk when [r] went out *)
| Slept (seconds : Z)
| Progress (bytes_downloaded total : Z).

(** The attributes of the [Downloader] object that the methods use. *)
Record Downloader : Type := MkDownloader {
  max_retries : Z;
  retry_delay : Z;
  total : Z;
  bytes_downloaded : Z;
  resume_header : option Z
}.

(** [Downloader()] *)
Definition new : Downloader :=
  {| max_retries := 5; retry_delay := 3; total := -1; bytes_downloaded := 0;
     resume_header := None |}.

Record state : Type := MkState {
  self : Downloader;
  disk : gmap string bytes;
  log : list event;            (* oldest first *)
  polls : nat                  (* how often the cancel event was read *)
}.

Definition set_self (f : Downloader -> Downloader) (s : state) : state :=
  {| self := f (self s); disk := disk s; log := log s; polls := polls s |}.
Definition set_disk (f : gmap string bytes -> gmap string bytes) (s : state) : state :=
  {| self := self s; disk := f (disk s); log := log s; polls := polls s |}.
Definition add_event (ev : event) (s : state) : state :=
  {| self := self s; disk := disk s; log := log s ++ [ev]; polls := polls s |}.

Definition with_retry_delay (v : Z) (d : Downloader) : Downloader :=
  {| max_retries := max_retries d; retry_delay := v; total := total d;
     bytes_downloaded := bytes_downloaded d; resume_header := resume_header d |}.
Definition with_total (v : Z) (d : Downloader) : Downloader :=
  {| max_retries := max_retries d; retry_delay := retry_delay d; total := v;
     bytes_downloaded := bytes_downloaded d; resume_header := resume_header d |}.
Definition with_bytes_downloaded (v : Z) (d : Downloader) : Downloader :=
  {| max_retries := max_retries d; retry_delay := retry_delay d; total := total d;
     bytes_downloaded := v; resume_header := resume_header d |}.
Definition with_resume_header (v : option Z) (d : Downloader) : Downloader :=
  {| max_retries := max_retries d; retry_delay := retry_delay d; total := total d;
     bytes_downloaded := bytes_downloaded d; resume_header := v |}.

(** The requests of a log, oldest first. *)
Definition requests (l : list event) : list request :=
  omap (fun ev => match ev with Sent r _ => Some r | _ => None end) l.

(** *** Statements that return, continue or raise

    A computation changes the state and either goes on with a value or
    leaves the normal flow: [return v], [continue], or an exception.  The
    state survives an exception, as it does in Python. *)

Inductive exit (R : Type) : Type :=
| ReturnWith (v : R)
| Continue
| Raise (e : py_exn).
Arguments ReturnWith {R} v.
Arguments Continue {R}.
Arguments Raise {R} e.

Inductive outcome (R A : Type) : Type :=
| Normal (a : A)
| Exits (x : exit R).
Arguments Normal {R A} a.
Arguments Exits {R A} x.

Definition M (R A : Type) : Type := state -> outcome R A * state.

Definition ret {R A} (a : A) : M R A := fun s => (Normal a, s).

Definition bind {R A B} (m : M R A) (k : A -> M R B) : M R B :=
  fun s =>
    match m s with
    | (Normal a, s') => k a s'
    | (Exits x, s') => (Exits x, s')
    end.

Declare Scope py_scope.
Delimit Scope py_scope with py.
Notation "x <- m ;; k" := (bind m (fun x => k))
  (at level 20, m at level 99, k at level 200, only parsing) : py_scope.
Notation "m ;; k" := (bind m (fun _ => k))
  (at level 100, k at level 200, only parsing, right associativity) : py_scope.
Local Open Scope py_scope.

Definition leave {R A} (x : exit R) : M R A := fun s => (Exits x, s).
Definition return_ {R A} (v : R) : M R A := leave (ReturnWith v).
Definition continue {R A} : M R A := leave Continue.
Definition raise {R A} (e : py_exn) : M R A := leave (Raise e).

Definition gets {R A} (f : state -> A) : M R A := fun s => (Normal (f s), s).
Definition modify {R} (f : state -> state) : M R unit := fun s => (Normal tt, f s).

Definition when {R} (b : bool) (m : M R unit) : M R unit := if b then m else ret tt.

(** [try: m except <classes>: handler], for the classes [catches] selects. *)
Definition try_except {R A} (m : M R A) (catches : py_exn -> bool)
    (handler : py_exn -> M R A) : M R A :=
  fun s =>
    match m s with
    | (Exits (Raise e), s') =>
        if catches e then handler e s' else (Exits (Raise e), s')
    | r => r
    end.

(** One iteration of a [for] loop: [continue] ends it. *)
Definition iteration {R} (m : M R unit) : M R unit :=
  fun s =>
    match m s with
    | (Exits Continue, s') => (Normal tt, s')
    | r => r
    end.

(** [for attempt in range(start, start + n): body attempt] *)
Fixpoint for_range {R} (n : nat) (start : Z) (body : Z -> M R unit) : M R unit :=
  match n with
  | O => ret tt
  | S n' => iteration (body start) ;; for_range n' (start + 1) body
  end.

(** What a call gives back to its caller. *)
Inductive returned (R : Type) : Type :=
| Returns (v : R)
| Raises (e : py_exn).
Arguments Returns {R} v.
Arguments Raises {R} e.

(** A function body run as a call.  A [continue] cannot escape a loop. *)
Definition call {R} (m : M R R) (s : state) : returned R * state :=
  match m s with
  | (Normal v, s') => (Returns v, s')
  | (Exits (ReturnWith v), s') => (Returns v, s')
  | (Exits (Raise e), s') => (Raises e, s')
  | (Exits Continue, s') => (Raises OtherException, s')
  end.

(** Calling a function from inside another body. *)
Definition invoke {R R'} (f : state -> returned R' * state) : M R R' :=
  fun s =>
    match f s with
    | (Returns v, s') => (Normal v, s')
    | (Raises e, s') => (Exits (Raise e), s')
    end.

(** *** Primitives *)

Section Primitives.
Context {R : Type}.

(** [os.path.exists], [os.path.getsize], [os.remove] on regular files. *)
Definition exists_ (path : string) : M R bool :=
  gets (fun s => bool_decide (is_Some (disk s !! path))).
Definition getsize (path : string) : M R Z :=
  gets (fun s => from_option len 0 (disk s !! path)).
Definition remove (path : string) : M R unit :=
  modify (set_disk (delete path)).

(** [open(path, "wb")] empties or creates the file, [open(path, "ab")]
    creates it when it is missing and keeps what it holds. *)
Definition open_w (path : string) (append : bool) : M R unit :=
  modify (set_disk (fun d =>
    match d !! path with
    | Some old => if append then d else <[path := []]> d
    | None => <[path := []]> d
    end)).

(** [f.write(chunk)] *)
Definition write (path : string) (chunk : bytes) : M R unit :=
  modify (set_disk (fun d => <[path := from_option id [] (d !! path) ++ chunk]> d)).

(** [time.sleep(seconds)] *)
Definition sleep (seconds : Z) : M R unit := modify (add_event (Slept seconds)).

(** [cancel_event and cancel_event.is_set()]: the event, when there is
    one, is given by its value at each successive reading. *)
Definition is_set (cancel_event : option (nat -> bool)) : M R bool :=
  match cancel_event with
  | None => ret false
  | Some ev =>
      fun s => (Normal (ev (polls s)),
                {| self := self s; disk := disk s; log := log s; polls := S (polls s) |})
  end.

(** [session.get] and [session.head]: the request is logged and the
    server's reply is the response or the exception raised. *)
Definition send (srv : server) (r : request) : M R response :=
  fun s =>
    let s' := add_event (Sent r (disk s)) s in
    match srv (length (requests (log s))) r with
    | Replied resp => (Normal resp, s')
    | Failed e => (Exits (Raise e), s')
    end.

(** [req.raise_for_status()] *)
Definition raise_for_status (resp : response) : M R unit :=
  if (400 <=? status_code resp) && (status_code resp <? 600)
  then raise (HTTPError (status_code resp))
  else ret tt.

(** [int(req.headers.get("Content-Length", 0))] *)
Definition int_content_length (resp : response) : M R Z :=
  match content_length resp with
  | Absent => ret 0
  | Integer n => ret n
  | NotAnInteger => raise OtherException
  end.

(** [req.content]: the whole body, read before [session.get] returns; a
    body that breaks makes the request itself raise. *)
Definition content (resp : response) : M R bytes :=
  match body_end resp with
  | EndOfBody => ret (concat (body resp))
  | Broken e => raise e
  end.

Definition retry_delay_ : M R Z := gets (fun s => retry_delay (self s)).
Definition max_retries_ : M R Z := gets (fun s => max_retries (self s)).
Definition total_ : M R Z := gets (fun s => total (self s)).

(** [time.sleep(self.retry_delay); self.retry_delay *= 2] *)
Definition back_off : M R unit :=
  d <- retry_delay_ ;;
  sleep d ;;
  modify (set_self (with_retry_delay (d * 2))).

End Primitives.

(** *** [get_bytes] and [get_string] *)

Definition get_content {T} (srv : server) (url : string) (convert : bytes -> M (option T) T)
  : M (option T) (option T) :=
  n <- max_retries_ ;;
  for_range (Z.to_nat (n + 1)) 0 (fun attempt =>
    try_except
      (req <- send srv (Request GET url None) ;;
       data <- content req ;;
       raise_for_status req ;;
       v <- convert data ;;
       return_ (Some v))
      is_RequestException
      (fun _ =>
         m <- max_retries_ ;;
         if attempt <? m then back_off
         else return_ None)) ;;
  ret None.

(** [get_bytes(url)] *)
Definition get_bytes (srv : server) (url : string) : state -> returned (option bytes) * state :=
  call (get_content srv url ret).

(** [get_string(url)]; [decode] stands for [bytes.decode("utf-8")], which
    raises [UnicodeDecodeError] where it gives [None]. *)
Definition get_string (decode : bytes -> option string) (srv : server) (url : string)
  : state -> returned (option string) * state :=
  call (get_content srv url (fun data =>
          match decode data with
          | Some text => ret text
          | None => raise OtherException
          end)).

(** *** [stream_to_file] *)

Record arguments : Type := Arguments_ {
  url : string;
  file_path : string;
  resume_bytes : Z;
  total_bytes : Z;
  allow_resume : bool;
  callback : bool;                         (* whether a callback was given *)
  cancel_event : option (nat -> bool);
  parent_window : option bool              (* a window, with the answer of its dialog *)
}.

(** [allow_resume and resume_bytes > 0] *)
Definition resuming (a : arguments) : bool := allow_resume a && (0 <? resume_bytes a).

(** [for chunk in req.iter_content(...)] inside [with open(...) as f] *)
Fixpoint write_chunks (a : arguments) (chunks : list bytes) (last : stream_end)
  : M (option string) unit :=
  match chunks with
  | [] =>
      match last with
      | EndOfBody => ret tt
      | Broken e => raise e
      end
  | chunk :: chunks' =>
      cancelled <- is_set (cancel_event a) ;;
      (if cancelled then return_ None else ret tt) ;;
      when (bool_decide (chunk <> []))
        (write (file_path a) chunk ;;
         modify (set_self (fun d => with_bytes_downloaded (bytes_downloaded d + len chunk) d)) ;;
         when (callback a)
           (modify (fun s => add_event (Progress (bytes_downloaded (self s)) (total (self s))) s))) ;;
      write_chunks a chunks' last
  end.

(** The [try] block of one attempt.  The assignment to [self.start_time]
    is left out, and so is the start time among the arguments of the
    callback: nothing in the method reads the clock again. *)
Definition attempt_try (srv : server) (a : arguments) (attempt : Z) : M (option string) unit :=
  modify (set_self (with_bytes_downloaded (resume_bytes a))) ;;
  modify (set_self (with_total (total_bytes a))) ;;
  cancelled <- is_set (cancel_event a) ;;
  (if cancelled then return_ None else ret tt) ;;
  (* Setup resume headers *)
  modify (set_self (with_resume_header
                      (if resuming a then Some (resume_bytes a) else None))) ;;
  (* Get total file size if not provided *)
  t <- total_ ;;
  when (bool_decide (t = -1) && resuming a)
    (try_except
       (cancelled <- is_set (cancel_event a) ;;
        (if cancelled then return_ None else ret tt) ;;
        head_req <- send srv (Request HEAD (url a) None) ;;
        raise_for_status head_req ;;
        n <- int_content_length head_req ;;
        modify (set_self (with_total n)))
       is_RequestException
       (fun _ => ret tt)) ;;
  cancelled <- is_set (cancel_event a) ;;
  (if cancelled then return_ None else ret tt) ;;
  (* Start the download *)
  hdr <- gets (fun s => resume_header (self s)) ;;
  req <- send srv (Request GET (url a) hdr) ;;
  raise_for_status req ;;
  (* Get total size from response headers if not already set *)
  t <- total_ ;;
  when (bool_decide (t = -1))
    (match content_length req with
     | Absent => modify (set_self (with_total 0))
     | Integer n => modify (set_self (with_total n))
     | NotAnInteger => ret tt
     end) ;;
  (* Download the file *)
  open_w (file_path a) (resuming a) ;;
  write_chunks a (body req) (body_end req) ;;
  (* Verify download completed successfully *)
  present <- exists_ (file_path a) ;;
  if present then
    actual_size <- getsize (file_path a) ;;
    t <- total_ ;;
    if (0 <? t) && bool_decide (actual_size <> t) then
      m <- max_retries_ ;;
      when (attempt <? m)
        (remove (file_path a) ;;
         back_off ;;
         continue)
    else
      return_ (Some (file_path a))
  else
    return_ None.

(** The [except] clauses of one attempt; [self_call] is
    [self.stream_to_file]. *)
Definition attempt_except
    (self_call : arguments -> state -> returned (option string) * state)
    (a : arguments) (attempt : Z) (e : py_exn) : M (option string) unit :=
  m <- max_retries_ ;;
  match e with
  | HTTPError code =>
      if bool_decide (code = 416) && resuming a then
        (* Range not satisfiable - retry from beginning *)
        present <- exists_ (file_path a) ;;
        when present (remove (file_path a)) ;;
        v <- invoke (self_call
               {| url := url a; file_path := file_path a; resume_bytes := 0;
                  total_bytes := -1; allow_resume := false;
                  callback := callback a; cancel_event := cancel_event a;
                  parent_window := None |}) ;;
        return_ v
      else if bool_decide (code ∈ [429; 500; 502; 503; 504]) && (attempt <? m) then
        (* Retryable server errors *)
        back_off ;;
        continue
      else
        return_ None
  | ConnectionError | Timeout =>
      if attempt <? m then
        back_off ;;
        continue
      else
        return_ None
  | RequestException | OtherException =>
      when (attempt <? m)
        (back_off ;;
         continue) ;;
      return_ None
  end.

(** The body of [stream_to_file], with the method it calls on a 416 as a
    parameter. *)
Definition stream_to_file_body
    (self_call : arguments -> state -> returned (option string) * state)
    (srv : server) (a : arguments) : M (option string) (option string) :=
  (* File existence check and GUI dialog *)
  present <- exists_ (file_path a) ;;
  when (present && bool_decide (resume_bytes a = 0))
    (match parent_window a with
     | Some overwrite => if negb overwrite then return_ None else ret tt
     | None => return_ None
     end) ;;
  original_retry_delay <- retry_delay_ ;;
  n <- max_retries_ ;;
  for_range (Z.to_nat (n + 1)) 0 (fun attempt =>
    try_except (attempt_try srv a attempt) (fun _ => true)
               (attempt_except self_call a attempt)) ;;
  (* Reset retry delay for next download *)
  modify (set_self (with_retry_delay original_retry_delay)) ;;
  ret None.

(** The call made on a 416 passes [allow_resume=False], and a call with
    resume disabled never reaches the 416 branch: it calls nothing. *)
Definition stream_to_file_restart (srv : server) (a : arguments)
  : state -> returned (option string) * state :=
  call (stream_to_file_body (fun _ s => (Raises OtherException, s)) srv a).

Definition stream_to_file (srv : server) (a : arguments)
  : state -> returned (option string) * state :=
  call (stream_to_file_body (stream_to_file_restart srv) srv a).

End Downloader.

(** ** The requests of a call, for the statements *)

Module DownloaderSpec.
Import Downloader.

(** The arguments of the call made on a 416. *)
Definition restart_arguments (a : arguments) : arguments :=
  {| url := url a; file_path := file_path a; resume_bytes := 0;
     total_bytes := -1; allow_resume := false;
     callback := callback a; cancel_event := cancel_event a;
     parent_window := None |}.

(** The [Range] start a call sends, as its arguments fix it. *)
Definition call_range (a : arguments) : option Z :=
  if resuming a then Some (resume_bytes a) else None.

(** The requests a call with arguments [a] sends by itself: [GET] with the
    range of the call; [HEAD], only when resuming, without a range. *)
Definition own_event (a : arguments) (ev : event) : Prop :=
  match ev with
  | Sent r _ =>
      match meth r with
      | GET => range_start r = call_range a
      | HEAD => resuming a = true /\ range_start r = None
      end
  | _ => True
  end.

(** The log of [s] is [l0] followed by events that satisfy [P]. *)
Definition extends (P : event -> Prop) (l0 : list event) (s : state) : Prop :=
  exists new, log s = l0 ++ new /\ Forall P new.

(** From a state where [pre] holds, [m] ends, however it ends, in a state
    where [post] holds. *)
Definition establishes {R A} (pre post : state -> Prop) (m : M R A) : Prop :=
  forall s, pre s -> post (m s).2.

(** The bytes of the destination on disk when the [k]-th request of a log
    went out, and the range that request asked for. *)
Definition on_disk_at (l : list event) (k : nat) (path : string) : option Z :=
  match omap (fun ev => match ev with Sent _ d => Some d | _ => None end) l !! k with
  | Some d => len <$> d !! path
  | None => None
  end.

Definition range_at (l : list event) (k : nat) : option Z :=
  match requests l !! k with
  | Some r => range_start r
  | None => None
  end.

(** From a state where [pre] holds, [m] goes on with a value and a state
    that satisfy [post], or leaves the normal flow in a way and a state
    that satisfy [on_exit]. *)
Definition ensures {R A} (pre : state -> Prop) (m : M R A)
    (post : A -> state -> Prop) (on_exit : exit R -> state -> Prop) : Prop :=
  forall s, pre s ->
    match m s with
    | (Normal a, s') => post a s'
    | (Exits x, s') => on_exit x s'
    end.

(** The number of pauses in a log. *)
Fixpoint pauses (l : list event) : nat :=
  match l with
  | [] => O
  | Slept _ :: l' => S (pauses l')
  | _ :: l' => pauses l'
  end.

(** The delay has doubled once for every pause logged since the log was
    [l0] and the delay [d0]. *)
Definition doubled (l0 : list event) (d0 : Z) (s : state) : Prop :=
  exists new, log s = l0 ++ new /\ retry_delay (self s) = d0 * 2 ^ Z.of_nat (pauses new).

(** [I] holds however a method is left, except by [return None]. *)
Definition unless_none {T} (I : state -> Prop) (x : exit (option T)) (s : state) : Prop :=
  match x with
  | ReturnWith None => True
  | _ => I s
  end.

(** [I] holds after a call, unless it returned [None]. *)
Definition unless_returns_none {T} (I : state -> Prop) (r : returned (option T))
    (s : state) : Prop :=
  match r with
  | Returns None => True
  | _ => I s
  end.

End DownloaderSpec.

(** ** Servers and calls for the examples *)

Module DownloadFixtures.
Import Downloader.

(** A resource of ten bytes. *)
Definition resource : bytes := of_string "0123456789".

(** What a server that honours [Range] sends for a request: the resource
    from the requested offset on, in chunks of at most three bytes. *)
Definition body_from (r : request) : bytes :=
  drop (Z.to_nat (default 0 (range_start r))) resource.

Fixpoint chunked (n : nat) (b : bytes) : list bytes :=
  match n with
  | O => []
  | S n' => match b with [] => [] | _ => take 3 b :: chunked n' (drop 3 b) end
  end.

Definition serve (r : request) : response :=
  {| status_code := match range_start r with Some _ => 206 | None => 200 end;
     content_length := Integer (len (body_from r));
     body := chunked 10 (body_from r);
     body_end := EndOfBody |}.


(** The first response ends after its first chunk without an error; the
    server works from then on. *)
Definition short_once : server := fun k r =>
  match k with
  | O => Replied {| status_code := status_code (serve r);
                    content_length := content_length (serve r);
                    body := take 1 (body (serve r));
                    body_end := EndOfBody |}
  | _ => Replied (serve r)
  end.

(** The first request times out; the server works from then on. *)
Definition times_out_once : server := fun k r =>
  match k with
  | O => Failed Timeout
  | _ => Replied (serve r)
  end.

(** The server refuses any range with a 416 and serves whole requests. *)
Definition refuses_ranges : server := fun k r =>
  match range_start r with
  | Some _ => Replied {| status_code := 416; content_length := Absent;
                         body := []; body_end := EndOfBody |}
  | None => Replied (serve r)
  end.

(** A fresh downloader, nothing logged, and the given files on disk. *)
Definition fresh (files : gmap string bytes) : state :=
  {| self := new; disk := files; log := []; polls := 0 |}.

(** [stream_to_file(url, "f", resume_bytes, total_bytes, allow_resume=True)] *)
Definition download (resume_bytes total_bytes : Z) : arguments :=
  {| url := "u"; file_path := "f"; resume_bytes := resume_bytes;
     total_bytes := total_bytes; allow_resume := true; callback := false;
     cancel_event := None; parent_window := None |}.

(** The first four bytes of the resource, left by an earlier run. *)
Definition partial : gmap string bytes := {[ "f" := take 4 resource ]}.

(** Bytes in the ASCII range as text. *)
Definition ascii_decode (b : bytes) : option string :=
  if forallb (fun x => byte_to_Z x <? 128) b
  then Some (String.string_of_list_byte b) else None.

End DownloadFixtures.

(** ** How a manifest that is cut short ends *)

Module ChunklistErrors.

(** The bytes [verify_chunklist] reads after the chunk table. *)
Definition signature_size (sm : Z) : nat :=
  if decide (sm = 1) then 256%nat else 32%nat.

(** The messages of the errors a manifest that ends too early can raise. *)
Definition truncation_errors : list string :=
  ["Invalid chunklist: chunk data truncated";
   "Invalid chunklist: signature truncated";
   "Invalid chunklist: hash verification failed"].

End ChunklistErrors.

Module MoreFixtures.
Import FileVerification ChunklistFormat.

(** The manifest of signature method 2 for ["abc"], cut in the middle of
    its trailing hash. *)
Definition cut_short : filesystem :=
  {[ "cut.chunklist" :=
       File (Fixtures.header_1 2 ++ Fixtures.table_abc ++ take 16 Fixtures.hash_abc) ]}.

End MoreFixtures.

(** ** [calculate_file_hash] and [verify_file_hash] *)

Module FileHashes.




Section Hashlib.
(** [str.lower], and [getattr(hashlib, name, None)] for the names of hash
    constructors: the constructor as the function from what the object is
    fed to its digest.  The other attributes of the module ([new],
    [algorithms_available], ...) are outside the model. *)
Context (lower : string -> string) (hashlib : string -> option (bytes -> bytes)).



End Hashlib.

End FileHashes.

Module HashFixtures.




End HashFixtures.

(** ** What a call leaves behind, for the statements *)

Module DownloaderRuns.
Import Downloader DownloaderSpec.

(** The [GET] of [get_bytes] and [get_string]. *)
Definition plain_get (u : string) : request := Request GET u None.

(** The [GET] of a call of [stream_to_file]. *)
Definition ranged_get (a : arguments) : request := Request GET (url a) (call_range a).



(** [raise_for_status] lets the response through. *)
Definition status_ok (resp : response) : Prop :=
  ~ (400 <= status_code resp < 600).

(** The destination may be written: it is missing, or the call resumes, or
    the dialog was answered with yes. *)
Definition may_write (a : arguments) (s : state) : Prop :=
  disk s !! file_path a = None \/ resume_bytes a <> 0 \/ parent_window a = Some true.

(** The size the check at the end of an attempt uses, given what
    [self.total] is when the response arrives: that value, or the
    [Content-Length] of the response when it is -1. *)
Definition checked_size (t : Z) (resp : response) : Z :=
  if bool_decide (t = -1) then
    match content_length resp with
    | Absent => 0
    | Integer n => n
    | NotAnInteger => -1
    end
  else t.

(** The same when no [HEAD] was sent. *)
Definition expected_size (a : arguments) (resp : response) : Z :=
  checked_size (total_bytes a) resp.

(** What the file holds when the download starts to write: with
    [open(..., "ab")] what it held, with [open(..., "wb")] nothing. *)
Definition kept (a : arguments) (s : state) : bytes :=
  if resuming a then default [] (disk s !! file_path a) else [].

(** The reports the callback gets for the chunks of a body: the running
    count from [from] on, one for each chunk that is not empty. *)
Fixpoint progress_reports (from total : Z) (chunks : list bytes) : list event :=
  match chunks with
  | [] => []
  | chunk :: chunks' =>
      if bool_decide (chunk <> [])
      then Progress (from + len chunk) total
             :: progress_reports (from + len chunk) total chunks'
      else progress_reports from total chunks'
  end.

(** The state after the chunks of a body were written. *)
Definition written (a : arguments) (chunks : list bytes) (s : state) : state :=
  {| self := with_bytes_downloaded
               (bytes_downloaded (self s) + len (concat chunks)) (self s);
     disk := <[file_path a := default [] (disk s !! file_path a) ++ concat chunks]> (disk s);
     log := log s ++ (if callback a
                      then progress_reports (bytes_downloaded (self s)) (total (self s)) chunks
                      else []);
     polls := polls s |}.

(** A returned path is the destination, and the file is there with the
    size that was expected, when one was. *)
Definition complete (a : arguments) (r : returned (option string)) (s : state) : Prop :=
  match r with
  | Returns (Some p) =>
      p = file_path a
      /\ exists c, disk s !! p = Some c
                   /\ (0 < total (self s) -> len c = total (self s))
  | _ => True
  end.

(** *** The parts of an attempt

    The [try] block of an attempt, once its first lines have set the
    counters and the header: the query for the size, and the transfer. *)

Local Open Scope py_scope.











(** Since the log was [l0], at most [nreq] requests were sent and at most
    [npause] pauses made. *)
Definition within (l0 : list event) (nreq npause : Z) (s : state) : Prop :=
  exists new, log s = l0 ++ new
              /\ Z.of_nat (length (requests new)) <= nreq
              /\ Z.of_nat (pauses new) <= npause.

End DownloaderRuns.

(** ** More servers and calls for the examples *)

Module MoreDownloadFixtures.
Import Downloader DownloadFixtures.


(** Every request is answered with one byte that is not ASCII. *)
Definition garbled : server := fun _ _ =>
  Replied {| status_code := 200; content_length := Integer 1;
             body := [[xff]]; body_end := EndOfBody |}.

(** The server answers every request in full. *)
Definition works : server := fun _ r => Replied (serve r).

(** [stream_to_file(url, "f", resume_bytes, total_bytes, allow_resume=True,
    callback=..., cancel_event=...)] *)
Definition watched (resume_bytes total_bytes : Z) (ev : nat -> bool) : arguments :=
  {| url := "u"; file_path := "f"; resume_bytes := resume_bytes;
     total_bytes := total_bytes; allow_resume := true; callback := true;
     cancel_event := Some ev; parent_window := None |}.

(** The same with a callback and no cancel event. *)
Definition reported (resume_bytes total_bytes : Z) : arguments :=
  {| url := "u"; file_path := "f"; resume_bytes := resume_bytes;
     total_bytes := total_bytes; allow_resume := true; callback := true;
     cancel_event := None; parent_window := None |}.


(** A cancel event that is set once it was read [k] times. *)
Definition set_from (k : nat) (n : nat) : bool := (k <=? n)%nat.

(** A file that is not the destination. *)
Definition bystander : gmap string bytes := {[ "other" := resource ]}.

End MoreDownloadFixtures.

(** ** [test_url_accessibility] *)

Module Accessibility.
Import Downloader.
Local Open Scope py_scope.


End Accessibility.

(** ** [GibMacOSBackend.download_prod] *)

Module Backend.
Import Downloader.

(** What [download_prod] raises: [CancelledError], or [ProgramError] for a
    product with nothing to download or with files that failed. *)
Inductive raised : Type :=
| CancelledError
| NoFilesError
| DownloadFailed (failed_downloads : list string).

Section Paths.
(** [os.path.basename], [os.path.join], and whether a URL ends in [.dmg]
    once lower-cased. *)
Context (basename : string -> string) (join : string -> string -> string)
        (is_dmg : string -> bool).

(** The packages of a product, each with its ["URL"] entry if it has
    one; [dl_list] keeps those with a URL that is not empty and, for
    [dmg], ends in [.dmg]. *)
Definition dl_list (dmg : bool) (packages : list (option string)) : list string :=
  omap (fun x =>
          match x with
          | Some url =>
              if bool_decide (url = EmptyString) then None
              else if dmg && negb (is_dmg url) then None
              else Some url
          | None => None
          end) packages.

(** [self.cancel_event and self.cancel_event.is_set()] *)
Definition cancelled (cancel_event : option (nat -> bool)) (s : state) : bool * state :=
  match is_set (R := unit) cancel_event s with
  | (Normal b, s') => (b, s')
  | (Exits _, s') => (false, s')
  end.

(** The loop over [dl_list].  The result is the list of failed downloads,
    or [None] when [CancelledError] was raised at the top of an iteration.
    Inside the [try], a [None] from [stream_to_file] raises
    [CancelledError] or [Exception]; [except Exception] catches both, as
    it does anything [stream_to_file] raises.  Status messages and the
    [caffeinate] process are left out. *)
Fixpoint download_loop (srv : server) (progress_callback : bool)
    (cancel_event : option (nat -> bool)) (full_download_path : string)
    (urls : list string) (failed_downloads : list string) (s : state)
  : option (list string) * state :=
  match urls with
  | [] => (Some failed_downloads, s)
  | url :: urls' =>
      let '(stop, s) := cancelled cancel_event s in
      if stop then (None, s)
      else
        let file_name := basename url in
        let file_path := join full_download_path file_name in
        let resume_bytes :=
          match disk s !! file_path with
          | Some content => len content
          | None => 0
          end in
        let '(result, s) :=
          stream_to_file srv
            {| url := url; file_path := file_path; resume_bytes := resume_bytes;
               total_bytes := -1; allow_resume := true;
               callback := progress_callback; cancel_event := cancel_event;
               parent_window := None |} s in
        match result with
        | Returns (Some _) =>
            download_loop srv progress_callback cancel_event full_download_path
              urls' failed_downloads s
        | Returns None =>
            let '(_, s) := cancelled cancel_event s in
            download_loop srv progress_callback cancel_event full_download_path
              urls' (failed_downloads ++ [file_name]) s
        | Raises _ =>
            download_loop srv progress_callback cancel_event full_download_path
              urls' (failed_downloads ++ [file_name]) s
        end
  end.

(** [download_prod(prod, download_dir, dmg)], with the directory of the
    product already made. *)
Definition download_prod (srv : server) (progress_callback : bool)
    (cancel_event : option (nat -> bool)) (full_download_path : string)
    (packages : list (option string)) (dmg : bool) (s : state)
  : option raised * state :=
  let urls := dl_list dmg packages in
  if bool_decide (urls = []) then (Some NoFilesError, s)
  else
    match download_loop srv progress_callback cancel_event full_download_path urls [] s with
    | (None, s) => (Some CancelledError, s)
    | (Some [], s) => (None, s)
    | (Some failed_downloads, s) => (Some (DownloadFailed failed_downloads), s)
    end.

End Paths.

End Backend.

Module BackendFixtures.

(** Paths of the examples: URLs without a directory part, so that
    [os.path.basename] changes nothing, and [os.path.join] on POSIX. *)
Definition same_name (u : string) : string := u.
Definition in_dir (d f : string) : string := d +:+ "/" +:+ f.
Definition no_dmg (u : string) : bool := false.

(** An empty file where the package goes. *)
Definition leftover : gmap string bytes := {[ "dir/a.pkg" := [] ]}.


End BackendFixtures.

(** * Properties *)

(** ** The hash *)

(** The model of the hash agrees with the test vector of the standard. *)
Example sha256_abc :
  SHA256.sha256 (of_string "abc") =
  of_Zs [0xba; 0x78; 0x16; 0xbf; 0x8f; 0x01; 0xcf; 0xea; 0x41; 0x41; 0x40; 0xde;
         0x5d; 0xae; 0x22; 0x23; 0xb0; 0x03; 0x61; 0xa3; 0x96; 0x17; 0x7a; 0x9c;
         0xb4; 0x10; 0xff; 0x61; 0xf2; 0x00; 0x15; 0xad].
Proof. vm_compute. reflexivity. Qed.

(** ** Reading from byte strings *)

Section ReadBytes.

Lemma len_app (a b : bytes) : len (a ++ b) = len a + len b.
Proof. unfold len. rewrite length_app. lia. Qed.

Lemma len_nonneg (a : bytes) : 0 <= len a.
Proof. unfold len. lia. Qed.

(** Reading exactly the length of a prefix returns that prefix. *)
Lemma read_bytes_app (a b : bytes) : read_bytes (len a) (a ++ b) = (a, b).
Proof.
  induction a as [|x a IH]; simpl.
  - destruct b; reflexivity.
  - replace (len (x :: a) - 1) with (len a) by (unfold len; simpl; lia).
    rewrite IH.
    destruct (len (x :: a) <=? 0) eqn:E; [|reflexivity].
    apply Z.leb_le in E. unfold len in E. simpl in E. lia.
Qed.

Lemma read_bytes_app_n (n : Z) (a b : bytes) :
  len a = n -> read_bytes n (a ++ b) = (a, b).
Proof. intros <-. apply read_bytes_app. Qed.

(** A read never returns more than it was asked for, and the bytes read
    followed by the bytes left are the bytes that were there. *)
Lemma read_bytes_spec (l : bytes) : forall n got rest,
  read_bytes n l = (got, rest) -> got ++ rest = l /\ (0 <= n -> len got <= n).
Proof.
  induction l as [|x l IH]; intros n got rest; simpl.
  - intros [= <- <-]. split; [reflexivity|]. unfold len. simpl. lia.
  - destruct (n <=? 0) eqn:E.
    + intros [= <- <-]. split; [reflexivity|]. unfold len. simpl. lia.
    + destruct (read_bytes (n - 1) l) as [g r] eqn:R. intros [= <- <-].
      apply Z.leb_gt in E. destruct (IH _ _ _ R) as [Happ Hlen].
      split; [simpl; congruence|]. intros _. unfold len in *. simpl. lia.
Qed.

(** Everything that was left has been read when the read comes short. *)
Lemma read_bytes_short (l : bytes) : forall n got rest,
  read_bytes n l = (got, rest) -> len got < n -> rest = [].
Proof.
  induction l as [|x l IH]; intros n got rest; simpl.
  - intros [= <- <-]. reflexivity.
  - destruct (n <=? 0) eqn:E.
    + intros [= <- <-]. apply Z.leb_le in E. unfold len. simpl. lia.
    + destruct (read_bytes (n - 1) l) as [g r] eqn:R. intros [= <- <-] H.
      apply (IH _ _ _ R). unfold len in *. simpl in H. lia.
Qed.

End ReadBytes.

(** ** Modular exponentiation is exponentiation followed by reduction *)

Section ModExpSpec.

Lemma pow_mod_pos_spec (a m : Z) (e : positive) :
  pow_mod_pos a e m = (a ^ Zpos e) mod m.
Proof.
  induction e as [e IH|e IH|]; simpl pow_mod_pos.
  - rewrite IH. replace (Z.pos e~1) with (Z.pos e + Z.pos e + 1) by lia.
    rewrite !Z.pow_add_r, Z.pow_1_r by lia.
    rewrite <- Zmult_mod, Zmult_mod_idemp_l. reflexivity.
  - rewrite IH. replace (Z.pos e~0) with (Z.pos e + Z.pos e) by lia.
    rewrite Z.pow_add_r by lia. rewrite <- Zmult_mod. reflexivity.
  - rewrite Z.pow_1_r. reflexivity.
Qed.

Lemma pow_mod_spec (a e m : Z) : 0 <= e -> pow_mod a e m = (a ^ e) mod m.
Proof.
  destruct e as [|p|p]; intros He; simpl pow_mod.
  - reflexivity.
  - apply pow_mod_pos_spec.
  - lia.
Qed.

End ModExpSpec.

(** ** The structure of [verify_chunklist] *)

Module VerificationFacts.
Import FileVerification ChunklistFormat.

Ltac in_list := repeat first [apply list_elem_of_here | apply list_elem_of_further].

Lemma verify_chunklist_file fs path data :
  fs !! path = Some (File data) ->
  verify_chunklist fs path = verify_open_chunklist data.
Proof.
  intros H. unfold verify_chunklist, path_exists, open_rb. rewrite H.
  rewrite bool_decide_eq_true_2 by eauto. reflexivity.
Qed.

Lemma verify_chunklist_missing fs path :
  fs !! path = None ->
  verify_chunklist fs path =
    Throw (FileNotFoundError ("Chunklist file not found: " +:+ path)).
Proof.
  intros H. unfold verify_chunklist, path_exists. rewrite H.
  rewrite bool_decide_eq_false_2 by (intros [? ?]; discriminate). reflexivity.
Qed.

Lemma elem_of_methods (m : Z) : m ∈ [1; 2] <-> m = 1 \/ m = 2.
Proof. rewrite !elem_of_cons, elem_of_nil. tauto. Qed.

(** With a good header the generator goes on to the chunk table. *)
Lemma verify_open_header_ok hd rest :
  length hd = 36%nat -> header_ok (CHUNKLIST_HEADER_unpack hd) ->
  verify_open_chunklist (hd ++ rest) =
    read_chunks (Z.to_nat (chunk_count (CHUNKLIST_HEADER_unpack hd)))
                (signature_method (CHUNKLIST_HEADER_unpack hd)) rest hd.
Proof.
  intros Hlen (Hm & Hs & Hv & Hc & Hsig & Hn & Ho & Hso).
  unfold verify_open_chunklist, CHUNKLIST_HEADER_size, CHUNK_size.
  rewrite (read_bytes_app_n 36 hd rest) by (unfold len; lia).
  rewrite decide_False by (unfold len; lia).
  rewrite decide_False by tauto.
  rewrite decide_False by tauto.
  rewrite decide_False by tauto.
  rewrite decide_False by tauto.
  rewrite decide_False by (rewrite elem_of_methods; tauto).
  rewrite decide_False by lia.
  rewrite decide_False by (change 36 with 36 in Ho; lia).
  rewrite decide_False by lia.
  reflexivity.
Qed.

(** With a bad header the generator raises before it yields. *)
Lemma verify_open_header_bad hd rest :
  length hd = 36%nat -> ~ header_ok (CHUNKLIST_HEADER_unpack hd) ->
  exists msg, verify_open_chunklist (hd ++ rest) = Throw (ValueError msg)
              /\ msg ∈ header_errors.
Proof.
  intros Hlen Hbad.
  unfold verify_open_chunklist, CHUNKLIST_HEADER_size, CHUNK_size.
  rewrite (read_bytes_app_n 36 hd rest) by (unfold len; lia).
  unfold header_errors.
  repeat (case_decide; [eexists; split; [reflexivity|in_list]|]).
  exfalso. apply Hbad. unfold header_ok.
  rewrite elem_of_methods in *.
  repeat split; try tauto; try lia; by apply dec_stable.
Qed.

Lemma yields_check_end f : yields (check_end f) = [].
Proof. unfold check_end. destruct (read_bytes 1 f). case_decide; reflexivity. Qed.

Lemma yields_verify_signature sm f ctx : yields (verify_signature sm f ctx) = [].
Proof.
  unfold verify_signature.
  destruct (read_bytes 256 f), (read_bytes 32 f).
  repeat case_decide; try reflexivity; apply yields_check_end.
Qed.

(** Over a complete chunk table the generator yields one record per
    entry, feeds the table to the running hash, and goes on to the
    signature with what follows the table. *)
Lemma read_chunks_table sm tail : forall n table ctx,
  length table = (36 * n)%nat ->
  yields (read_chunks n sm (table ++ tail) ctx) = map CHUNK_unpack (records n table)
  /\ ending (read_chunks n sm (table ++ tail) ctx)
     = ending (verify_signature sm tail (ctx ++ table)).
Proof.
  induction n as [|n IH]; intros table ctx Hlen.
  - destruct table; [|simpl in Hlen; lia]. simpl.
    rewrite yields_verify_signature, app_nil_r. tauto.
  - pose proof (take_drop 36 table) as E.
    assert (Hrec : length (take 36 table) = 36%nat) by (rewrite length_take; lia).
    assert (Hrest : length (drop 36 table) = (36 * n)%nat) by (rewrite length_drop; lia).
    revert E Hrec Hrest. generalize (take 36 table) (drop 36 table).
    intros r t <- Hrec Hrest. clear Hlen.
    simpl. rewrite take_app_length', drop_app_length' by congruence.
    unfold CHUNK_size.
    rewrite <- app_assoc, (read_bytes_app_n 36) by (unfold len; lia).
    rewrite decide_False by (unfold len; lia).
    destruct (IH t (ctx ++ r) Hrest) as [IHy IHe].
    simpl. rewrite IHy, IHe, <- app_assoc. tauto.
Qed.

(** A generator reading a table never ends normally under signature
    method 2, however much of the manifest is there. *)
Lemma read_chunks_method_2 : forall n f ctx,
  exists e, ending (read_chunks n 2 f ctx) = Raised e.
Proof.
  induction n as [|n IH]; intros f ctx; simpl.
  - unfold verify_signature. rewrite decide_False by lia.
    rewrite decide_True by reflexivity.
    destruct (read_bytes 32 f). case_decide; eexists; reflexivity.
  - destruct (read_bytes CHUNK_size f) as [data f'].
    case_decide; [eexists; reflexivity|]. simpl. apply IH.
Qed.

(** A generator that ends in an exception never lets the loop of
    [verify_file_against_chunklist] run to its end. *)
Lemma for_chunks_error (g : generator (Z * bytes)) : forall f e,
  ending g = Raised e ->
  for_chunks g f = LoopReturn false \/ exists e', for_chunks g f = LoopRaise e'.
Proof.
  induction g as [[size hash] next IH| |e0]; intros f e He; simpl in *.
  - destruct (read size f) as [[data f']|e1]; [|eauto].
    repeat (case_decide; [tauto|]). eauto.
  - discriminate.
  - eauto.
Qed.

End VerificationFacts.

(** ** The padded digest *)

Module PaddingFacts.
Import FileVerification ChunklistFormat.

Lemma byte_to_Z_range (b : byte) : 0 <= byte_to_Z b < 256.
Proof.
  unfold byte_to_Z. pose proof (Byte.to_N_bounded b) as H. lia.
Qed.

Lemma fold_big_acc (b : bytes) : forall acc,
  fold_left (fun acc x => acc * 256 + byte_to_Z x) b acc
  = acc * 256 ^ len b + int_from_bytes_big b.
Proof.
  unfold int_from_bytes_big.
  induction b as [|x b IH]; intros acc; cbn [fold_left].
  - unfold len. simpl. lia.
  - rewrite (IH (acc * 256 + byte_to_Z x)), (IH (0 * 256 + byte_to_Z x)).
    replace (len (x :: b)) with (len b + 1) by (unfold len; simpl; lia).
    rewrite Z.pow_add_r by (pose proof (len_nonneg b); lia).
    rewrite Z.pow_1_r. ring.
Qed.

Lemma int_from_bytes_big_app (a b : bytes) :
  int_from_bytes_big (a ++ b)
  = int_from_bytes_big a * 256 ^ len b + int_from_bytes_big b.
Proof.
  unfold int_from_bytes_big at 1. rewrite fold_left_app.
  fold (int_from_bytes_big a). apply fold_big_acc.
Qed.

Lemma int_from_bytes_big_range (b : bytes) :
  0 <= int_from_bytes_big b < 256 ^ len b.
Proof.
  induction b as [|x b IH] using rev_ind.
  - unfold len. simpl. unfold int_from_bytes_big. simpl. lia.
  - rewrite int_from_bytes_big_app, len_app.
    replace (int_from_bytes_big [x]) with (byte_to_Z x)
      by (unfold int_from_bytes_big; simpl; lia).
    replace (len [x]) with 1 by reflexivity.
    rewrite Z.pow_add_r by (pose proof (len_nonneg b); lia).
    pose proof (byte_to_Z_range x). nia.
Qed.

Lemma length_int_to_bytes_big (n : nat) (v : Z) : length (int_to_bytes_big n v) = n.
Proof.
  unfold int_to_bytes_big. rewrite length_rev.
  revert v. induction n as [|n IH]; intros v; simpl; [reflexivity|].
  rewrite IH. reflexivity.
Qed.

(** A SHA-256 digest has 32 bytes. *)
Lemma sha256_length (m : bytes) : length (SHA256.sha256 m) = 32%nat.
Proof.
  unfold SHA256.sha256, SHA256.output.
  rewrite !length_app, !length_int_to_bytes_big. reflexivity.
Qed.

Lemma lor_shiftl_low (p x n : Z) :
  0 <= n -> 0 <= x < 2 ^ n -> Z.lor (Z.shiftl p n) x = Z.shiftl p n + x.
Proof.
  intros Hn Hx.
  assert (Hland : Z.land (Z.shiftl p n) x = 0).
  { apply Z.bits_inj'. intros i Hi. rewrite Z.land_spec, Z.bits_0.
    destruct (Z.lt_ge_cases i n) as [Hlt|Hge].
    - rewrite Z.shiftl_spec_low by lia. reflexivity.
    - destruct (Z.eq_dec x 0) as [->|Hx0].
      + rewrite Z.bits_0. apply andb_false_r.
      + rewrite (Z.bits_above_log2 x i); [apply andb_false_r|lia|].
        apply Z.lt_le_trans with n; [|lia]. apply Z.log2_lt_pow2; lia. }
  rewrite <- Z.lxor_lor by assumption. symmetry.
  apply Z.add_nocarry_lxor. assumption.
Qed.

(** The constant of [verify_chunklist] with the digest or-ed in is the
    big-endian value of the PKCS#1 v1.5 encoding of the digest. *)
Lemma plaintext_pkcs1 (digest : bytes) :
  length digest = 32%nat ->
  plaintext digest = int_from_bytes_big (pkcs1_encode digest).
Proof.
  intros Hlen. unfold plaintext, pkcs1_encode.
  rewrite int_from_bytes_big_app.
  replace (len digest) with 32 by (unfold len; lia).
  replace (int_of_hex _) with (Z.shiftl (int_from_bytes_big pkcs1_padding) 256)
    by (vm_compute; reflexivity).
  rewrite lor_shiftl_low.
  - rewrite Z.shiftl_mul_pow2 by lia. reflexivity.
  - lia.
  - pose proof (int_from_bytes_big_range digest) as H.
    replace (len digest) with 32 in H by (unfold len; lia).
    change (256 ^ 32) with (2 ^ 256) in H. exact H.
Qed.

End PaddingFacts.

(** ** Claims about [FileVerification] *)

Module VerificationClaims.
Import FileVerification ChunklistFormat VerificationFacts PaddingFacts.

(** The loop of [verify_file_against_chunklist] only ever returns
    [False]. *)
Lemma for_chunks_return (g : generator (Z * bytes)) : forall f b,
  for_chunks g f = LoopReturn b -> b = false.
Proof.
  induction g as [[size hash] next IH| |e0]; intros f b; simpl.
  - destruct (read size f) as [[data f']|e1]; [|discriminate].
    repeat (case_decide; [congruence|]). apply IH.
  - discriminate.
  - discriminate.
Qed.

(** On a file that is exactly the chunks the generator describes, the
    loop runs to its end and leaves nothing unread. *)
Lemma for_chunks_matching (chunks : list bytes) : forall g rest,
  yields g = map (fun c => (len c, SHA256.sha256 c)) chunks ->
  ending g = Ok tt ->
  for_chunks g (FileObj (concat chunks ++ rest) false) = LoopDone (FileObj rest false).
Proof.
  induction chunks as [|c chunks IH]; intros g rest Hy He.
  - destruct g as [y next| |e]; simpl in *; try discriminate. reflexivity.
  - destruct g as [y next| |e]; simpl in *; try discriminate.
    injection Hy as -> Hy. unfold read. simpl.
    rewrite <- app_assoc, read_bytes_app.
    rewrite decide_False by tauto. rewrite decide_False by tauto.
    apply IH; assumption.
Qed.

(** The check that follows the loop reads a file that is closed. *)
Lemma matching_file_reported_false fs file_path chunklist_path (chunks : list bytes) :
  fs !! file_path = Some (File (concat chunks)) ->
  yields (verify_chunklist fs chunklist_path)
    = map (fun c => (len c, SHA256.sha256 c)) chunks ->
  ending (verify_chunklist fs chunklist_path) = Ok tt ->
  verify_file_try fs file_path chunklist_path = Raised (ValueError "read of closed file")
  /\ verify_file_against_chunklist fs file_path chunklist_path = Ok false.
Proof.
  intros Hf Hy He.
  assert (Htry : verify_file_try fs file_path chunklist_path
                 = Raised (ValueError "read of closed file")).
  { unfold verify_file_try, open_rb. rewrite Hf.
    rewrite <- (app_nil_r (concat chunks)).
    rewrite (for_chunks_matching chunks _ [] Hy He). reflexivity. }
  split; [exact Htry|].
  unfold verify_file_against_chunklist, path_exists. rewrite Hf.
  rewrite bool_decide_eq_true_2 by eauto. simpl. rewrite Htry. reflexivity.
Qed.

(** On the three bytes ["abc"] and a generator that yields their size and
    hash and stops, the loop ends with nothing unread; the read that
    follows is made on the closed file and raises. *)
Example closed_file_read :
  for_chunks (Yield (3, SHA256.sha256 Fixtures.abc) Stop) (FileObj Fixtures.abc false)
    = LoopDone (FileObj [] false)
  /\ read 1 (close (FileObj [] false)) = Raised (ValueError "read of closed file").
Proof. split; vm_compute; reflexivity. Qed.

(** C1 (the code departs from the claim).  Whatever the file system holds,
    [verify_file_against_chunklist] does not return [True]: it raises when
    the target is missing and returns [False] otherwise.  The check for
    leftover bytes is made after the [with] block has closed the file, the
    read raises, and the [except] clause turns that into [False].  So a
    file that is exactly the chunks of a valid manifest is reported as
    failing too. *)
Theorem verify_file_never_true (fs : filesystem) (file_path chunklist_path : string) :
  verify_file_against_chunklist fs file_path chunklist_path
  = (if path_exists fs file_path then Ok false
     else Raised (FileNotFoundError ("File not found: " +:+ file_path)))
  /\ verify_file_against_chunklist fs file_path chunklist_path <> Ok true.
Proof.
  assert (H : verify_file_against_chunklist fs file_path chunklist_path
              = (if path_exists fs file_path then Ok false
                 else Raised (FileNotFoundError ("File not found: " +:+ file_path)))).
  { unfold verify_file_against_chunklist, verify_file_try.
    destruct (path_exists fs file_path); [|reflexivity]. simpl.
    destruct (open_rb fs file_path) as [f|e]; [|reflexivity].
    destruct (for_chunks (verify_chunklist fs chunklist_path) f) as [b|e|f'] eqn:E.
    - apply for_chunks_return in E. subst b. reflexivity.
    - reflexivity.
    - reflexivity. }
  split; [exact H|]. rewrite H.
  destruct (path_exists fs file_path); discriminate.
Qed.

(** C2, as the claim words it, fails: the signature bytes [01 00 .. 00]
    stand for 1 in the code, which reads them least significant byte
    first, and for [2 ^ 2040] as a big-endian integer; the two values
    raised to the public exponent modulo the public key differ, so the
    number compared with the padded digest is not the one the claim
    describes. *)
Lemma signature_big_endian_refuted :
  length Fixtures.sig_one = 256%nat
  /\ signature_int Fixtures.sig_one = 1
  /\ int_from_bytes_big Fixtures.sig_one = 2 ^ 2040
  /\ pow_mod (signature_int Fixtures.sig_one) 0x10001 APPLE_EFI_ROM_PUBLIC_KEY_1
     <> pow_mod (int_from_bytes_big Fixtures.sig_one) 0x10001 APPLE_EFI_ROM_PUBLIC_KEY_1.
Proof.
  split; [reflexivity|]. split; [vm_compute; reflexivity|].
  split; [vm_compute; reflexivity|].
  vm_compute. discriminate.
Qed.

(** C2, amended.  For a manifest with a good header, signature method 1,
    a complete chunk table and 256 signature bytes, [verify_chunklist]
    yields the records of the table and then reads the signature bytes as
    a little-endian integer, raises it to the exponent 65537 modulo the
    public key and compares the result with the big-endian value of the
    PKCS#1 v1.5 encoding (padding, SHA-256 [DigestInfo] header, digest) of
    the SHA-256 digest of header and table.  A mismatch raises the
    signature error; a match leaves only the check for trailing bytes. *)
Theorem signature_method_1_check (fs : filesystem) (path : string)
    (hd table sig extra : bytes) :
  fs !! path = Some (File (hd ++ table ++ sig ++ extra)) ->
  length hd = 36%nat ->
  header_ok (CHUNKLIST_HEADER_unpack hd) ->
  signature_method (CHUNKLIST_HEADER_unpack hd) = 1 ->
  length table = (36 * Z.to_nat (chunk_count (CHUNKLIST_HEADER_unpack hd)))%nat ->
  length sig = 256%nat ->
  yields (verify_chunklist fs path)
    = map CHUNK_unpack (records (Z.to_nat (chunk_count (CHUNKLIST_HEADER_unpack hd))) table)
  /\ ending (verify_chunklist fs path)
     = if decide ((int_from_bytes_little sig ^ 65537) mod APPLE_EFI_ROM_PUBLIC_KEY_1
                  = int_from_bytes_big (pkcs1_encode (SHA256.sha256 (hd ++ table))))
       then if decide (extra = []) then Ok tt
            else Raised (ValueError "Invalid chunklist: extra data after signature")
       else Raised (ValueError "Invalid chunklist: signature verification failed").
Proof.
  intros Hfs Hlen Hok Hsm Htable Hsig.
  rewrite (verify_chunklist_file _ _ _ Hfs), (verify_open_header_ok _ _ Hlen Hok).
  destruct (read_chunks_table (signature_method (CHUNKLIST_HEADER_unpack hd))
              (sig ++ extra) _ table hd Htable) as [Hy He].
  split; [exact Hy|]. rewrite He, Hsm. clear Hy He.
  unfold verify_signature. rewrite decide_True by reflexivity.
  rewrite (read_bytes_app_n 256) by (unfold len; lia).
  rewrite decide_False by (unfold len; lia).
  unfold signature_int.
  rewrite pow_mod_spec by lia.
  rewrite plaintext_pkcs1 by apply sha256_length.
  change 0x10001 with 65537.
  destruct (decide (_ = _)) as [Heq|Hne].
  - rewrite decide_False by tauto. unfold check_end.
    destruct extra as [|x extra]; [reflexivity|]. simpl.
    destruct (read_bytes (1 - 1) extra). reflexivity.
  - rewrite decide_True by assumption. reflexivity.
Qed.

Ltac by_computation := vm_compute; reflexivity.

Ltac fixture_header_ok :=
  unfold header_ok; repeat apply conj;
  first [by_computation | left; by_computation | right; by_computation].

Lemma signature_method_1_check_witness :
  yields (verify_chunklist Fixtures.fs "signed.chunklist")
    = map CHUNK_unpack (records 1 Fixtures.table_abc)
  /\ ending (verify_chunklist Fixtures.fs "signed.chunklist")
     = if decide ((int_from_bytes_little Fixtures.sig_ones ^ 65537)
                    mod APPLE_EFI_ROM_PUBLIC_KEY_1
                  = int_from_bytes_big
                      (pkcs1_encode (SHA256.sha256 (Fixtures.header_1 1 ++ Fixtures.table_abc))))
       then if decide (@nil byte = []) then Ok tt
            else Raised (ValueError "Invalid chunklist: extra data after signature")
       else Raised (ValueError "Invalid chunklist: signature verification failed").
Proof.
  apply (signature_method_1_check Fixtures.fs "signed.chunklist"
           (Fixtures.header_1 1) Fixtures.table_abc Fixtures.sig_ones []).
  - by_computation.
  - by_computation.
  - fixture_header_ok.
  - by_computation.
  - by_computation.
  - by_computation.
Defined.

(** C3.  A manifest whose header names signature method 2 is never
    accepted: driven to its end, [verify_chunklist] raises.  When the
    header is good and the chunk table complete, the 32 bytes that follow
    decide which error it is: the missing-signature [RuntimeError] when
    they equal the running digest, the hash [ValueError] when they do
    not. *)
Theorem signature_method_2_always_rejected (fs : filesystem) (path : string)
    (data : bytes) :
  fs !! path = Some (File data) ->
  signature_method (CHUNKLIST_HEADER_unpack (take 36 data)) = 2 ->
  (exists e, ending (verify_chunklist fs path) = Raised e)
  /\ (forall hd table hash extra,
        data = hd ++ table ++ hash ++ extra ->
        length hd = 36%nat ->
        header_ok (CHUNKLIST_HEADER_unpack hd) ->
        length table = (36 * Z.to_nat (chunk_count (CHUNKLIST_HEADER_unpack hd)))%nat ->
        length hash = 32%nat ->
        ending (verify_chunklist fs path)
        = if decide (hash = SHA256.sha256 (hd ++ table))
          then Raised (RuntimeError "Chunklist missing digital signature")
          else Raised (ValueError "Invalid chunklist: hash verification failed")).
Proof.
  intros Hfs Hsm. rewrite (verify_chunklist_file _ _ _ Hfs). split.
  - unfold verify_open_chunklist, CHUNKLIST_HEADER_size.
    destruct (read_bytes 36 data) as [d f] eqn:R.
    case_decide as Hd; [eexists; reflexivity|].
    apply read_bytes_spec in R as [Happ _].
    assert (Hlen : length d = 36%nat) by (unfold len in Hd; lia).
    rewrite <- Happ, take_app_length' in Hsm by congruence.
    repeat (case_decide; [eexists; reflexivity|]).
    rewrite Hsm. apply read_chunks_method_2.
  - intros hd table hash extra -> Hlen Hok Htable Hhash.
    rewrite take_app_length' in Hsm by congruence.
    rewrite (verify_open_header_ok _ _ Hlen Hok).
    destruct (read_chunks_table (signature_method (CHUNKLIST_HEADER_unpack hd))
                (hash ++ extra) _ table hd Htable) as [_ He].
    rewrite He, Hsm. unfold verify_signature.
    rewrite decide_False by lia. rewrite decide_True by reflexivity.
    rewrite (read_bytes_app_n 32) by (unfold len; lia).
    destruct (decide (hash = _)) as [Heq|Hne].
    + rewrite decide_False by tauto. reflexivity.
    + rewrite decide_True by assumption. reflexivity.
Qed.

Lemma signature_method_2_always_rejected_witness :
  ending (verify_chunklist Fixtures.fs "hashed.chunklist")
  = Raised (RuntimeError "Chunklist missing digital signature").
Proof.
  destruct (signature_method_2_always_rejected Fixtures.fs "hashed.chunklist"
              Fixtures.manifest_hashed) as [_ H].
  - by_computation.
  - by_computation.
  - rewrite (H (Fixtures.header_1 2) Fixtures.table_abc Fixtures.hash_abc []).
    + by_computation.
    + reflexivity.
    + by_computation.
    + fixture_header_ok.
    + by_computation.
    + by_computation.
Defined.

(** C4.  A manifest whose header breaks one of the invariants (magic,
    header size, file version, chunk method, signature method, chunk
    table offset, signature offset) makes [verify_chunklist] raise a
    [ValueError] that names the fault, before anything is yielded.  A
    manifest with a good header, a complete chunk table and signature
    region, and bytes after the signature region never ends normally
    either: under signature method 1 it ends in a [ValueError], the one
    for extra data once the signature has been accepted; under signature
    method 2 it ends, as every such manifest does, in the hash or
    missing-signature error. *)
Theorem structural_errors_raised (fs : filesystem) (path : string) (hd rest : bytes) :
  fs !! path = Some (File (hd ++ rest)) ->
  length hd = 36%nat ->
  (magic (CHUNKLIST_HEADER_unpack hd) <> of_string "CNKL"
   \/ header_size (CHUNKLIST_HEADER_unpack hd) <> 36
   \/ file_version (CHUNKLIST_HEADER_unpack hd) <> 1
   \/ chunk_method (CHUNKLIST_HEADER_unpack hd) <> 1
   \/ signature_method (CHUNKLIST_HEADER_unpack hd) ∉ [1; 2]
   \/ chunk_offset (CHUNKLIST_HEADER_unpack hd) <> 36
   \/ signature_offset (CHUNKLIST_HEADER_unpack hd)
      <> 36 + 36 * chunk_count (CHUNKLIST_HEADER_unpack hd) ->
   exists msg, verify_chunklist fs path = Throw (ValueError msg) /\ msg ∈ header_errors)
  /\ (forall table sig extra,
        header_ok (CHUNKLIST_HEADER_unpack hd) ->
        rest = table ++ sig ++ extra ->
        length table = (36 * Z.to_nat (chunk_count (CHUNKLIST_HEADER_unpack hd)))%nat ->
        length sig = (if decide (signature_method (CHUNKLIST_HEADER_unpack hd) = 1)
                      then 256%nat else 32%nat) ->
        extra <> [] ->
        (signature_method (CHUNKLIST_HEADER_unpack hd) = 1
         /\ ending (verify_chunklist fs path)
            = Raised (ValueError
                (if decide (pow_mod (signature_int sig) 0x10001 APPLE_EFI_ROM_PUBLIC_KEY_1
                            = plaintext (SHA256.sha256 (hd ++ table)))
                 then "Invalid chunklist: extra data after signature"
                 else "Invalid chunklist: signature verification failed")))
        \/ (signature_method (CHUNKLIST_HEADER_unpack hd) = 2
            /\ ending (verify_chunklist fs path)
               = Raised (if decide (sig = SHA256.sha256 (hd ++ table))
                         then RuntimeError "Chunklist missing digital signature"
                         else ValueError "Invalid chunklist: hash verification failed"))).
Proof.
  intros Hfs Hlen. rewrite (verify_chunklist_file _ _ _ Hfs). split.
  - intros Hbad. apply verify_open_header_bad; [assumption|].
    unfold header_ok. rewrite elem_of_methods in Hbad. intuition lia.
  - intros table sig extra Hok -> Htable Hsig Hextra.
    rewrite (verify_open_header_ok _ _ Hlen Hok).
    destruct (read_chunks_table (signature_method (CHUNKLIST_HEADER_unpack hd))
                (sig ++ extra) _ table hd Htable) as [_ He].
    rewrite He. clear He. unfold verify_signature.
    destruct Hok as (_ & _ & _ & _ & [Hsm|Hsm] & _); rewrite Hsm in *; [left|right];
      (split; [reflexivity|]).
    + rewrite decide_True in Hsig by reflexivity.
      rewrite decide_True by reflexivity.
      rewrite (read_bytes_app_n 256) by (unfold len; lia).
      rewrite decide_False by (unfold len; lia).
      destruct (decide (pow_mod _ _ _ = _)) as [Heq|Hne].
      * rewrite decide_False by tauto. unfold check_end.
        destruct extra as [|x extra]; [congruence|]. simpl.
        destruct (read_bytes (1 - 1) extra). reflexivity.
      * rewrite decide_True by assumption. reflexivity.
    + rewrite decide_False in Hsig by lia.
      rewrite decide_False by lia. rewrite decide_True by reflexivity.
      rewrite (read_bytes_app_n 32) by (unfold len; lia).
      destruct (decide (sig = _)) as [Heq|Hne].
      * rewrite decide_False by tauto. reflexivity.
      * rewrite decide_True by assumption. reflexivity.
Qed.

Lemma structural_errors_raised_witness :
  (exists msg, verify_chunklist Fixtures.fs "magic.chunklist" = Throw (ValueError msg)
               /\ msg ∈ header_errors)
  /\ ending (verify_chunklist Fixtures.fs "extra.chunklist")
     = Raised (RuntimeError "Chunklist missing digital signature")
  /\ ending (verify_chunklist Fixtures.fs "signed_extra.chunklist")
     = Raised (ValueError "Invalid chunklist: signature verification failed").
Proof.
  split; [|split].
  - apply (structural_errors_raised Fixtures.fs "magic.chunklist"
             Fixtures.header_bad_magic []).
    + by_computation.
    + by_computation.
    + left. vm_compute. discriminate.
  - destruct (structural_errors_raised Fixtures.fs "extra.chunklist"
                (Fixtures.header_1 2) (Fixtures.table_abc ++ Fixtures.hash_abc ++ [x00]))
      as [_ H].
    + by_computation.
    + by_computation.
    + destruct (H Fixtures.table_abc Fixtures.hash_abc [x00]) as [[Hsm _]|[_ He]].
      * fixture_header_ok.
      * reflexivity.
      * by_computation.
      * by_computation.
      * discriminate.
      * vm_compute in Hsm. discriminate.
      * rewrite He. by_computation.
  - destruct (structural_errors_raised Fixtures.fs "signed_extra.chunklist"
                (Fixtures.header_1 1) (Fixtures.table_abc ++ Fixtures.sig_ones ++ [x00]))
      as [_ H].
    + by_computation.
    + by_computation.
    + destruct (H Fixtures.table_abc Fixtures.sig_ones [x00]) as [[_ He]|[Hsm _]].
      * fixture_header_ok.
      * reflexivity.
      * by_computation.
      * by_computation.
      * discriminate.
      * rewrite He. by_computation.
      * vm_compute in Hsm. discriminate.
Defined.

(** C9.  A manifest whose header declares no chunks is rejected with the
    chunk-count error before anything is yielded, when magic, header
    size, file version and both methods are in order, whatever the
    offsets are. *)
Theorem zero_chunk_count_rejected (fs : filesystem) (path : string) (hd rest : bytes) :
  fs !! path = Some (File (hd ++ rest)) ->
  length hd = 36%nat ->
  chunk_count (CHUNKLIST_HEADER_unpack hd) = 0 ->
  magic (CHUNKLIST_HEADER_unpack hd) = of_string "CNKL" ->
  header_size (CHUNKLIST_HEADER_unpack hd) = 36 ->
  file_version (CHUNKLIST_HEADER_unpack hd) = 1 ->
  chunk_method (CHUNKLIST_HEADER_unpack hd) = 1 ->
  signature_method (CHUNKLIST_HEADER_unpack hd) = 1
    \/ signature_method (CHUNKLIST_HEADER_unpack hd) = 2 ->
  verify_chunklist fs path = Throw (ValueError "Invalid chunklist: invalid chunk count")
  /\ yields (verify_chunklist fs path) = [].
Proof.
  intros Hfs Hlen Hcount Hm Hs Hv Hc Hsm.
  rewrite (verify_chunklist_file _ _ _ Hfs).
  unfold verify_open_chunklist, CHUNKLIST_HEADER_size.
  rewrite (read_bytes_app_n 36 hd rest) by (unfold len; lia).
  rewrite decide_False by (unfold len; lia).
  rewrite decide_False by tauto.
  rewrite decide_False by tauto.
  rewrite decide_False by tauto.
  rewrite decide_False by tauto.
  rewrite decide_False by (rewrite elem_of_methods; tauto).
  rewrite decide_True by lia.
  split; reflexivity.
Qed.

Lemma zero_chunk_count_rejected_witness :
  verify_chunklist Fixtures.fs "empty.chunklist"
    = Throw (ValueError "Invalid chunklist: invalid chunk count")
  /\ yields (verify_chunklist Fixtures.fs "empty.chunklist") = [].
Proof.
  apply (zero_chunk_count_rejected Fixtures.fs "empty.chunklist" Fixtures.header_empty []).
  - by_computation.
  - by_computation.
  - by_computation.
  - by_computation.
  - by_computation.
  - by_computation.
  - by_computation.
  - left. by_computation.
Defined.

(** C10.  A target file that does not exist makes
    [verify_file_against_chunklist] raise [FileNotFoundError].  When the
    target exists the function never raises, and every error of the
    manifest (a chunklist that is missing or cannot be opened, a
    structural error, a failed signature) comes out as [False]. *)
Theorem missing_inputs_asymmetry (fs : filesystem) (file_path chunklist_path : string) :
  (path_exists fs file_path = false ->
   verify_file_against_chunklist fs file_path chunklist_path
   = Raised (FileNotFoundError ("File not found: " +:+ file_path)))
  /\ (path_exists fs file_path = true ->
      (exists b, verify_file_against_chunklist fs file_path chunklist_path = Ok b)
      /\ (forall e, ending (verify_chunklist fs chunklist_path) = Raised e ->
                    verify_file_against_chunklist fs file_path chunklist_path = Ok false)).
Proof.
  unfold verify_file_against_chunklist. split; intros ->; simpl; [reflexivity|].
  split.
  - destruct (verify_file_try fs file_path chunklist_path); eauto.
  - intros e He. unfold verify_file_try.
    destruct (open_rb fs file_path) as [f|e0]; [|reflexivity].
    destruct (for_chunks_error _ f e He) as [->|[e' ->]]; reflexivity.
Qed.

Lemma missing_inputs_asymmetry_witness :
  verify_file_against_chunklist Fixtures.fs "absent.dmg" "hashed.chunklist"
    = Raised (FileNotFoundError "File not found: absent.dmg")
  /\ verify_file_against_chunklist Fixtures.fs "image.dmg" "absent.chunklist" = Ok false
  /\ verify_file_against_chunklist Fixtures.fs "image.dmg" "folder" = Ok false
  /\ verify_file_against_chunklist Fixtures.fs "image.dmg" "magic.chunklist" = Ok false.
Proof.
  split; [|split; [|split]].
  - apply (proj1 (missing_inputs_asymmetry Fixtures.fs "absent.dmg" "hashed.chunklist")).
    by_computation.
  - apply (proj2 (missing_inputs_asymmetry Fixtures.fs "image.dmg" "absent.chunklist"))
      with (e := FileNotFoundError "Chunklist file not found: absent.chunklist");
      by_computation.
  - apply (proj2 (missing_inputs_asymmetry Fixtures.fs "image.dmg" "folder"))
      with (e := IsADirectoryError "Is a directory: folder");
      by_computation.
  - apply (proj2 (missing_inputs_asymmetry Fixtures.fs "image.dmg" "magic.chunklist"))
      with (e := ValueError "Invalid chunklist: wrong magic number");
      by_computation.
Defined.

End VerificationClaims.

(** ** What a computation of the downloader leaves in the state *)

Module DownloaderFacts.
Import Downloader DownloaderSpec.
Local Open Scope py_scope.

Section Extends.
Context (P : event -> Prop) (l0 : list event).

Lemma extends_refl s : extends P (log s) s.
Proof. exists []. rewrite app_nil_r. auto. Qed.

Lemma extends_same_log s s' : log s' = log s -> extends P l0 s -> extends P l0 s'.
Proof. intros E (new & Hl & HP). exists new. rewrite E. auto. Qed.

Lemma extends_add_event ev s : P ev -> extends P l0 s -> extends P l0 (add_event ev s).
Proof.
  intros Hev (new & Hl & HP). exists (new ++ [ev]). simpl. rewrite Hl, app_assoc.
  split; [reflexivity|]. apply Forall_app. auto.
Qed.


End Extends.

Section Establishes.
Context {R : Type}.

Lemma est_ret {A} (pre post : state -> Prop) (a : A) :
  (forall s, pre s -> post s) -> establishes (R := R) pre post (ret a).
Proof. intros H s Hs. apply H, Hs. Qed.

Lemma est_leave {A} (pre post : state -> Prop) (x : exit R) :
  (forall s, pre s -> post s) -> establishes (A := A) pre post (leave x).
Proof. intros H s Hs. apply H, Hs. Qed.

Lemma est_gets {A} (pre post : state -> Prop) (f : state -> A) :
  (forall s, pre s -> post s) -> establishes (R := R) pre post (gets f).
Proof. intros H s Hs. apply H, Hs. Qed.

Lemma est_modify (pre post : state -> Prop) (f : state -> state) :
  (forall s, pre s -> post (f s)) -> establishes (R := R) pre post (modify f).
Proof. intros H s Hs. apply H, Hs. Qed.

Lemma est_bind {A B} (pre mid post : state -> Prop) (m : M R A) (k : A -> M R B) :
  establishes pre mid m -> (forall s, mid s -> post s) ->
  (forall a, establishes mid post (k a)) ->
  establishes pre post (bind m k).
Proof.
  intros Hm Hmid Hk s Hs. unfold bind. specialize (Hm s Hs).
  destruct (m s) as [[a|x] s']; simpl in *.
  - apply Hk, Hm.
  - apply Hmid, Hm.
Qed.

(** The common case: an invariant. *)
Lemma est_seq {A B} (I : state -> Prop) (m : M R A) (k : A -> M R B) :
  establishes I I m -> (forall a, establishes I I (k a)) -> establishes I I (bind m k).
Proof. intros Hm Hk. apply (est_bind I I I); auto. Qed.

(** A value read from the state may be used for what follows. *)
Lemma est_bind_gets {A B} (pre post : state -> Prop) (f : state -> A) (k : A -> M R B) :
  (forall s, pre s -> post (k (f s) s).2) -> establishes pre post (bind (gets f) k).
Proof. intros H s Hs. apply H, Hs. Qed.

Lemma est_when (I : state -> Prop) (b : bool) (m : M R unit) :
  establishes I I m -> establishes I I (when b m).
Proof. intros Hm. destruct b; [exact Hm|]. apply est_ret. auto. Qed.

Lemma est_try_except {A} (I : state -> Prop) (m : M R A)
    (catches : py_exn -> bool) (handler : py_exn -> M R A) :
  establishes I I m -> (forall e, establishes I I (handler e)) ->
  establishes I I (try_except m catches handler).
Proof.
  intros Hm Hh s Hs. unfold try_except. specialize (Hm s Hs).
  destruct (m s) as [[a|[v| |e]] s']; simpl in *; try exact Hm.
  destruct (catches e); [apply Hh, Hm|exact Hm].
Qed.

Lemma est_iteration (pre post : state -> Prop) (m : M R unit) :
  establishes pre post m -> establishes pre post (iteration m).
Proof.
  intros Hm s Hs. unfold iteration. specialize (Hm s Hs).
  destruct (m s) as [[a|[v| |e]] s']; exact Hm.
Qed.

Lemma est_for_range (I : state -> Prop) (body : Z -> M R unit) :
  (forall i, establishes I I (body i)) ->
  forall n start, establishes I I (for_range n start body).
Proof.
  intros Hb. induction n as [|n IH]; intros start; simpl.
  - apply est_ret. auto.
  - apply est_seq; [apply est_iteration, Hb|intros _; apply IH].
Qed.

Lemma est_invoke {R'} (pre post : state -> Prop) (f : state -> returned R' * state) :
  (forall s, pre s -> post (f s).2) -> establishes (R := R) pre post (invoke f).
Proof.
  intros H s Hs. unfold invoke. specialize (H s Hs).
  destruct (f s) as [[v|e] s']; exact H.
Qed.

Lemma est_is_set (I : state -> Prop) (ev : option (nat -> bool)) :
  (forall s n, I s -> I (MkState (self s) (disk s) (log s) n)) ->
  establishes (R := R) I I (is_set ev).
Proof.
  intros H. destruct ev as [f|]; [|apply est_ret; auto].
  intros s Hs. apply H, Hs.
Qed.

Lemma est_send (I : state -> Prop) (srv : server) (r : request) :
  (forall s, I s -> I (add_event (Sent r (disk s)) s)) ->
  establishes (R := R) I I (send srv r).
Proof.
  intros H s Hs. unfold send.
  destruct (srv _ r); apply H, Hs.
Qed.

End Establishes.

Lemma call_state {R} (m : M R R) (s : state) : (call m s).2 = (m s).2.
Proof. unfold call. destruct (m s) as [[a|[v| |e]] s']; reflexivity. Qed.

(** Steps through a computation that keeps an invariant; what the
    invariant needs of each change of state is left to [side]. *)
Ltac est_with side :=
  lazymatch goal with
  | |- establishes ?I ?I (bind _ _) =>
      apply est_seq; [est_with side|intros ?; est_with side]
  | |- establishes ?I ?I (ret _) => apply est_ret; auto
  | |- establishes ?I ?I (leave _) => apply est_leave; auto
  | |- establishes ?I ?I (return_ _) => apply est_leave; auto
  | |- establishes ?I ?I continue => apply est_leave; auto
  | |- establishes ?I ?I (raise _) => apply est_leave; auto
  | |- establishes ?I ?I (gets _) => apply est_gets; auto
  | |- establishes ?I ?I (modify _) => apply est_modify; side
  | |- establishes ?I ?I (when _ _) => apply est_when; est_with side
  | |- establishes ?I ?I (try_except _ _ _) =>
      apply est_try_except; [est_with side|intros ?; est_with side]
  | |- establishes ?I ?I (is_set _) => apply est_is_set; side
  | |- establishes ?I ?I (send _ _) => apply est_send; side
  | |- establishes ?I ?I (if ?b then _ else _) => destruct b; est_with side
  | |- establishes ?I ?I (match ?x with _ => _ end) => destruct x; est_with side
  | |- establishes ?I ?I ?m =>
      first [progress unfold exists_, getsize, remove, open_w, write, sleep, back_off,
                             retry_delay_, max_retries_, total_, raise_for_status,
                             int_content_length, content;
             est_with side
            | idtac]
  end.

Section Logs.
Context (P : event -> Prop) (l0 : list event) (a : arguments).
Hypothesis P_slept : forall d, P (Slept d).
Hypothesis P_progress : forall b t, P (Progress b t).
Hypothesis P_own : forall ev, own_event a ev -> P ev.

Let I := extends P l0.

(** A change of state that logs nothing, or logs a pause, a progress
    report or a request of the call, keeps the invariant. *)
Ltac log_side :=
  intros;
  first [ eapply extends_same_log; [|eassumption]; reflexivity
        | apply extends_add_event;
          [first [solve [auto] | apply P_own; simpl; solve [auto]]|assumption] ].

Lemma write_chunks_log last : forall chunks,
  establishes I I (write_chunks a chunks last).
Proof.
  induction chunks as [|chunk chunks IH]; simpl.
  - destruct last; est_with log_side.
  - est_with log_side. apply IH.
Qed.

(** Between the line that sets [self.resume_header] and the request that
    uses it, the header is the one the arguments fix. *)
Let J (s : state) : Prop := resume_header (self s) = call_range a.
Let IJ (s : state) : Prop := I s /\ J s.

Ltac header_side :=
  intros; unfold IJ, J in *;
  match goal with H : _ /\ _ |- _ => destruct H end;
  split; [log_side|simpl; assumption].

Lemma attempt_try_log srv attempt : establishes I I (attempt_try srv a attempt).
Proof.
  unfold attempt_try.
  apply est_seq; [est_with log_side|intros _].
  apply est_seq; [est_with log_side|intros _].
  apply est_seq; [est_with log_side|intros cancelled].
  apply est_seq; [est_with log_side|intros _].
  apply (est_bind I IJ I);
    [apply est_modify; intros s Hs; split; [log_side|reflexivity]
    |unfold IJ; tauto|intros _].
  apply (est_bind IJ IJ I); [est_with header_side|unfold IJ; tauto|intros t].
  apply (est_bind IJ IJ I); [|unfold IJ; tauto|intros _].
  { destruct (bool_decide (t = -1)); simpl; [|apply est_ret; auto].
    destruct (resuming a) eqn:Hres; simpl; [|apply est_ret; auto].
    est_with header_side. }
  apply (est_bind IJ IJ I); [est_with header_side|unfold IJ; tauto|intros c].
  apply (est_bind IJ IJ I); [est_with header_side|unfold IJ; tauto|intros _].
  apply est_bind_gets. intros s [HI HJ]. unfold J in HJ. rewrite HJ.
  refine ((_ : establishes I I _) s HI). clear s HI HJ.
  est_with log_side. apply write_chunks_log.
Qed.

Lemma attempt_except_log self_call attempt e :
  (forall s, I s -> I (self_call (restart_arguments a) s).2) ->
  establishes I I (attempt_except self_call a attempt e).
Proof.
  intros Hcall. unfold attempt_except.
  est_with log_side; apply est_invoke; exact Hcall.
Qed.

Lemma stream_to_file_body_log self_call srv :
  (forall s, I s -> I (self_call (restart_arguments a) s).2) ->
  establishes I I (stream_to_file_body self_call srv a).
Proof.
  intros Hcall. unfold stream_to_file_body.
  est_with log_side.
  apply est_for_range. intros i. apply est_try_except.
  - apply attempt_try_log.
  - intros e. apply attempt_except_log, Hcall.
Qed.

End Logs.

(** A call with resume disabled logs its own requests only. *)
Lemma stream_to_file_restart_log srv a l0 s :
  extends (own_event a) l0 s ->
  extends (own_event a) l0 (stream_to_file_restart srv a s).2.
Proof.
  unfold stream_to_file_restart. rewrite call_state.
  apply stream_to_file_body_log; simpl; auto.
Qed.


(** *** The call made on a 416 is the only one *)

Section SelfCall.
Context {R : Type}.

Lemma bind_ext {A B} (m : M R A) (k1 k2 : A -> M R B) s :
  (forall a s', k1 a s' = k2 a s') -> bind m k1 s = bind m k2 s.
Proof. intros H. unfold bind. destruct (m s) as [[a|x] s']; auto. Qed.

Lemma try_except_ext {A} (m : M R A) catches (h1 h2 : py_exn -> M R A) s :
  (forall e s', h1 e s' = h2 e s') ->
  try_except m catches h1 s = try_except m catches h2 s.
Proof.
  intros H. unfold try_except.
  destruct (m s) as [[a|[v| |e]] s']; auto. destruct (catches e); auto.
Qed.

Lemma for_range_ext (b1 b2 : Z -> M R unit) :
  (forall i s, b1 i s = b2 i s) ->
  forall n start s, for_range n start b1 s = for_range n start b2 s.
Proof.
  intros H. induction n as [|n IH]; intros start s; simpl; [reflexivity|].
  unfold bind, iteration. rewrite H.
  destruct (b2 start s) as [[a|[v| |e]] s']; auto.
Qed.

End SelfCall.

(** The handlers use [self_call] at the restart arguments only. *)
Lemma attempt_except_ext f g a attempt e s :
  (forall s', f (restart_arguments a) s' = g (restart_arguments a) s') ->
  attempt_except f a attempt e s = attempt_except g a attempt e s.
Proof.
  intros H. unfold attempt_except.
  apply bind_ext. intros m s1. destruct e; try reflexivity.
  destruct (bool_decide (code = 416) && resuming a); [|reflexivity].
  apply bind_ext. intros present s2. apply bind_ext. intros _ s3.
  unfold bind, invoke. fold (restart_arguments a). rewrite H. reflexivity.
Qed.

(** With resume disabled they do not use it at all. *)
Lemma attempt_except_no_resume f g a attempt e s :
  resuming a = false ->
  attempt_except f a attempt e s = attempt_except g a attempt e s.
Proof.
  intros Hres. unfold attempt_except.
  apply bind_ext. intros m s1. destruct e; try reflexivity.
  rewrite Hres, andb_false_r. reflexivity.
Qed.

Lemma stream_to_file_body_ext f g srv a s :
  (forall s', f (restart_arguments a) s' = g (restart_arguments a) s') ->
  stream_to_file_body f srv a s = stream_to_file_body g srv a s.
Proof.
  intros H. unfold stream_to_file_body.
  do 4 (apply bind_ext; intros ? ?).
  unfold bind. erewrite for_range_ext; [reflexivity|].
  intros i s1. apply try_except_ext. intros e s2. apply attempt_except_ext, H.
Qed.

Lemma stream_to_file_body_no_resume f g srv a s :
  resuming a = false ->
  stream_to_file_body f srv a s = stream_to_file_body g srv a s.
Proof.
  intros Hres. unfold stream_to_file_body.
  do 4 (apply bind_ext; intros ? ?).
  unfold bind. erewrite for_range_ext; [reflexivity|].
  intros i s1. apply try_except_ext. intros e s2.
  apply attempt_except_no_resume, Hres.
Qed.

(** [stream_to_file] is the method its own body calls: the model satisfies
    the recursive definition of the source. *)
Lemma stream_to_file_unfold srv a s :
  stream_to_file srv a s = call (stream_to_file_body (stream_to_file srv) srv a) s.
Proof.
  unfold stream_to_file at 1. unfold call.
  rewrite (stream_to_file_body_ext _ (stream_to_file srv)); [reflexivity|].
  intros s'. unfold stream_to_file, stream_to_file_restart, call.
  rewrite (stream_to_file_body_no_resume _ (stream_to_file_restart srv)); reflexivity.
Qed.

(** A [GET] answered with status 416 makes the [try] block raise the HTTP
    error, with the disk as it was (stated for a call without a cancel
    event that knows the total size, so that no [HEAD] comes first). *)
Lemma get_answered_416 srv a attempt s resp :
  cancel_event a = None -> total_bytes a <> -1 ->
  srv (length (requests (log s))) (Request GET (url a) (call_range a)) = Replied resp ->
  status_code resp = 416 ->
  exists s1, attempt_try srv a attempt s = (Exits (Raise (HTTPError 416)), s1)
             /\ disk s1 = disk s.
Proof.
  intros Hc Ht Hsrv H416. unfold attempt_try. rewrite Hc.
  unfold bind, modify, is_set, ret, gets, total_, when, send. simpl.
  rewrite bool_decide_eq_false_2 by assumption. simpl.
  change (if resuming a then Some (resume_bytes a) else None) with (call_range a).
  rewrite Hsrv. unfold raise_for_status. rewrite H416. simpl.
  eexists. split; reflexivity.
Qed.

(** *** How a computation is left *)

Section Ensures.
Context {R : Type}.

Lemma ens_ret {A} pre (a : A) post (Q : exit R -> state -> Prop) :
  (forall s, pre s -> post a s) -> ensures pre (ret a) post Q.
Proof. intros H s Hs. apply H, Hs. Qed.

Lemma ens_leave {A} pre (x : exit R) (post : A -> state -> Prop) Q :
  (forall s, pre s -> Q x s) -> ensures pre (leave x) post Q.
Proof. intros H s Hs. apply H, Hs. Qed.

Lemma ens_gets {A} pre (f : state -> A) post (Q : exit R -> state -> Prop) :
  (forall s, pre s -> post (f s) s) -> ensures pre (gets f) post Q.
Proof. intros H s Hs. apply H, Hs. Qed.

Lemma ens_modify pre (f : state -> state) post (Q : exit R -> state -> Prop) :
  (forall s, pre s -> post tt (f s)) -> ensures pre (modify f) post Q.
Proof. intros H s Hs. apply H, Hs. Qed.

Lemma ens_bind {A B} pre (m : M R A) mid (k : A -> M R B) post Q :
  ensures pre m mid Q -> (forall a, ensures (mid a) (k a) post Q) ->
  ensures pre (bind m k) post Q.
Proof.
  intros Hm Hk s Hs. unfold bind. specialize (Hm s Hs).
  destruct (m s) as [[a|x] s']; [apply Hk, Hm|exact Hm].
Qed.

Lemma ens_when pre (b : bool) (m : M R unit) (post : unit -> state -> Prop) Q :
  (b = true -> ensures pre m post Q) -> (b = false -> forall s, pre s -> post tt s) ->
  ensures pre (when b m) post Q.
Proof. destruct b; intros Hm Hs; [apply Hm; reflexivity|apply ens_ret, Hs; reflexivity]. Qed.

Lemma ens_try_except {A} pre (m : M R A) catches handler post Qm Q :
  ensures pre m post Qm ->
  (forall e, catches e = true -> ensures (Qm (Raise e)) (handler e) post Q) ->
  (forall x s, Qm x s ->
     match x with Raise e => catches e = false -> Q x s | _ => Q x s end) ->
  ensures pre (try_except m catches handler) post Q.
Proof.
  intros Hm Hh HQ s Hs. unfold try_except. specialize (Hm s Hs).
  destruct (m s) as [[a|[v| |e]] s']; try exact Hm; try (apply (HQ _ _ Hm)).
  destruct (catches e) eqn:E; [apply (Hh e E), Hm|apply (HQ _ _ Hm), E].
Qed.

Lemma ens_for_range (I : state -> Prop) (body : Z -> M R unit) Q Qb :
  (forall i, ensures I (body i) (fun _ => I) Qb) ->
  (forall s, Qb Continue s -> I s) ->
  (forall x s, Qb x s -> x <> Continue -> Q x s) ->
  forall n start, ensures I (for_range n start body) (fun _ => I) Q.
Proof.
  intros Hb Hc HQ. induction n as [|n IH]; intros start; simpl.
  - apply ens_ret. auto.
  - apply ens_bind with (mid := fun _ => I); [|intros _; apply IH].
    intros s Hs. unfold iteration. specialize (Hb start s Hs).
    destruct (body start s) as [[a|[v| |e]] s']; auto; apply HQ; auto; discriminate.
Qed.

Lemma ens_invoke {R'} pre (f : state -> returned R' * state) post (Q : exit R -> state -> Prop) :
  (forall s, pre s ->
     match f s with
     | (Returns v, s') => post v s'
     | (Raises e, s') => Q (Raise e) s'
     end) ->
  ensures pre (invoke f) post Q.
Proof.
  intros H s Hs. unfold invoke. specialize (H s Hs).
  destruct (f s) as [[v|e] s']; exact H.
Qed.

Lemma ens_is_set pre (ev : option (nat -> bool)) (post : bool -> state -> Prop)
    (Q : exit R -> state -> Prop) :
  (forall s b n, pre s -> post b (MkState (self s) (disk s) (log s) n)) ->
  (forall s, pre s -> post false s) ->
  ensures pre (is_set ev) post Q.
Proof.
  intros H H0. destruct ev as [f|]; [|apply ens_ret; auto].
  intros s Hs. apply H, Hs.
Qed.

Lemma ens_send pre (srv : server) (r : request) post (Q : exit R -> state -> Prop) :
  (forall s resp, pre s -> post resp (add_event (Sent r (disk s)) s)) ->
  (forall s e, pre s -> Q (Raise e) (add_event (Sent r (disk s)) s)) ->
  ensures pre (send srv r) post Q.
Proof.
  intros H He s Hs. unfold send. destruct (srv _ r); [apply H|apply He]; exact Hs.
Qed.

Lemma ens_call (pre : state -> Prop) (m : M R R) (post : returned R -> state -> Prop) :
  ensures pre m (fun v => post (Returns v))
    (fun x => match x with
              | ReturnWith v => post (Returns v)
              | Raise e => post (Raises e)
              | Continue => post (Raises OtherException)
              end) ->
  forall s, pre s -> post (call m s).1 (call m s).2.
Proof.
  intros H s Hs. unfold call. specialize (H s Hs).
  destruct (m s) as [[a|[v| |e]] s']; exact H.
Qed.

End Ensures.

(** Steps through a computation under an invariant; [side] settles what
    the invariant needs of a change of state, [out] what a way of leaving
    needs, and [hook] is tried on every part before it is taken apart. *)
Ltac ens_with side out hook :=
  first
  [ hook
  | lazymatch goal with
    | |- ensures ?I (bind _ _) (fun _ => ?I) _ =>
        apply ens_bind with (mid := fun _ => I);
        [ens_with side out hook|intros ?; ens_with side out hook]
    | |- ensures _ (ret _) _ _ => apply ens_ret; auto
    | |- ensures _ (leave _) _ _ => apply ens_leave; out
    | |- ensures _ (return_ _) _ _ => apply ens_leave; out
    | |- ensures _ continue _ _ => apply ens_leave; out
    | |- ensures _ (raise _) _ _ => apply ens_leave; out
    | |- ensures _ (gets _) _ _ => apply ens_gets; auto
    | |- ensures _ (modify _) _ _ => apply ens_modify; side
    | |- ensures _ (when _ _) _ _ =>
        apply ens_when; [intros ?; ens_with side out hook|auto]
    | |- ensures _ (is_set _) _ _ => apply ens_is_set; [side|auto]
    | |- ensures _ (send _ _) _ _ => apply ens_send; [side|out]
    | |- ensures ?I (try_except _ _ _) (fun _ => ?I) ?Q =>
        apply ens_try_except with (Qm := Q);
        [ens_with side out hook
        |intros ? ?; ens_with side out hook
        |intros [?| |?] ? ?; auto]
    | |- ensures _ (if ?b then _ else _) _ _ => destruct b eqn:?; ens_with side out hook
    | |- ensures _ (match ?x with _ => _ end) _ _ => destruct x eqn:?; ens_with side out hook
    | |- ensures _ ?m _ _ =>
        first [progress unfold exists_, getsize, remove, open_w, write, sleep,
                               retry_delay_, max_retries_, total_, raise_for_status,
                               int_content_length, content;
               ens_with side out hook
              | idtac]
    end ].

(** *** After a size mismatch *)

Section Mismatch.
Context (srv : server) (a : arguments) (attempt : Z) (d0 m0 : Z).

(** The retry parameters are untouched. *)
Let K (s : state) : Prop := retry_delay (self s) = d0 /\ max_retries (self s) = m0.

(** Where the [try] block says [continue], the file is gone, attempts are
    left and the delay has doubled. *)
Let Q (x : exit (option string)) (s : state) : Prop :=
  match x with
  | Continue => disk s !! file_path a = None /\ attempt < m0 /\ retry_delay (self s) = d0 * 2
  | _ => K s
  end.

Ltac k_side := intros; unfold K in *; simpl; assumption.
Ltac k_out := intros; unfold Q, K in *; simpl; assumption.

Lemma write_chunks_keeps last : forall chunks,
  ensures K (write_chunks a chunks last) (fun _ => K) Q.
Proof.
  induction chunks as [|chunk chunks IH]; simpl.
  - destruct last; ens_with k_side k_out fail.
  - ens_with k_side k_out fail; apply IH.
Qed.

(** The branch taken on a size mismatch. *)
Lemma mismatch_branch :
  ensures K
    (m <- max_retries_ ;;
     when (attempt <? m) (remove (file_path a) ;; back_off ;; continue))
    (fun _ => K) Q.
Proof.
  intros s [Hd Hm].
  unfold bind, max_retries_, gets, when, remove, back_off, retry_delay_, sleep,
    modify, continue, leave, ret.
  destruct (attempt <? max_retries (self s)) eqn:E; simpl.
  - apply Z.ltb_lt in E. rewrite lookup_delete_eq. repeat split; lia.
  - split; assumption.
Qed.

Lemma attempt_try_continues : ensures K (attempt_try srv a attempt) (fun _ => K) Q.
Proof.
  unfold attempt_try.
  ens_with k_side k_out ltac:(first [apply mismatch_branch|apply write_chunks_keeps]).
Qed.

End Mismatch.

(** An attempt that ends in [continue] has met a size mismatch: it leaves
    no file, attempts remain, and the delay has doubled. *)
Lemma attempt_try_continue srv a attempt s s1 :
  attempt_try srv a attempt s = (Exits Continue, s1) ->
  disk s1 !! file_path a = None
  /\ attempt < max_retries (self s)
  /\ retry_delay (self s1) = retry_delay (self s) * 2.
Proof.
  intros H.
  pose proof (attempt_try_continues srv a attempt (retry_delay (self s))
                (max_retries (self s)) s (conj eq_refl eq_refl)) as Hc.
  rewrite H in Hc. exact Hc.
Qed.

(** *** The delay after a call *)

Lemma pauses_app l1 l2 : pauses (l1 ++ l2) = (pauses l1 + pauses l2)%nat.
Proof.
  induction l1 as [|ev l1 IH]; simpl; [reflexivity|].
  destruct ev; simpl; rewrite IH; reflexivity.
Qed.

Section Backoff.
Context (l0 : list event) (d0 : Z).

Let Inv := doubled l0 d0.

Lemma backoff_same s s' :
  log s' = log s -> retry_delay (self s') = retry_delay (self s) -> Inv s -> Inv s'.
Proof. intros El Ed (new & Hl & Hd). exists new. rewrite El, Ed. auto. Qed.

Lemma backoff_event ev s :
  pauses [ev] = O -> Inv s -> Inv (add_event ev s).
Proof.
  intros Hev (new & Hl & Hd). exists (new ++ [ev]). simpl.
  rewrite Hl, app_assoc, pauses_app, Hev, Nat.add_0_r. auto.
Qed.

Ltac inv_side :=
  intros;
  first [ eapply backoff_same; [| |eassumption]; reflexivity
        | apply backoff_event; [reflexivity|assumption] ].

Lemma back_off_doubles {R} (Q : exit R -> state -> Prop) :
  ensures Inv back_off (fun _ => Inv) Q.
Proof.
  intros s (new & Hl & Hd).
  unfold back_off, bind, retry_delay_, gets, sleep, modify.
  exists (new ++ [Slept (retry_delay (self s))]). simpl.
  rewrite Hl, app_assoc, pauses_app.
  split; [reflexivity|].
  change (pauses [Slept (retry_delay (self s))]) with 1%nat.
  rewrite Nat2Z.inj_add, Z.pow_add_r, Z.pow_1_r, Hd by lia. ring.
Qed.

Ltac inv_out :=
  intros; unfold unless_none;
  first [exact I | inv_side | assumption
        | match goal with |- match ?v with _ => _ end => destruct v; first [exact I|assumption] end].

Section Stream.
Context (srv : server) (a : arguments).

Lemma write_chunks_backoff last : forall chunks,
  ensures Inv (write_chunks a chunks last) (fun _ => Inv) (unless_none Inv).
Proof.
  induction chunks as [|chunk chunks IH]; simpl.
  - destruct last; ens_with inv_side inv_out fail.
  - ens_with inv_side inv_out fail; apply IH.
Qed.

Lemma attempt_try_backoff attempt :
  ensures Inv (attempt_try srv a attempt) (fun _ => Inv) (unless_none Inv).
Proof.
  unfold attempt_try.
  ens_with inv_side inv_out
    ltac:(first [apply back_off_doubles|apply write_chunks_backoff]).
Qed.

Lemma invoke_return_backoff (f : state -> returned (option string) * state) :
  (forall s, Inv s -> unless_returns_none Inv (f s).1 (f s).2) ->
  ensures Inv (v <- invoke f ;; return_ v) (fun _ : unit => Inv) (unless_none Inv).
Proof.
  intros Hcall.
  apply ens_bind with (mid := fun v s => match v with Some _ => Inv s | None => True end).
  - apply ens_invoke. intros s Hs. specialize (Hcall s Hs).
    destruct (f s) as [[[p|]|e'] s']; exact Hcall.
  - intros v. apply ens_leave. intros s Hs. destruct v; exact Hs.
Qed.

Lemma attempt_except_backoff self_call attempt e :
  (forall s, Inv s ->
     unless_returns_none Inv (self_call (restart_arguments a) s).1 (self_call (restart_arguments a) s).2) ->
  ensures Inv (attempt_except self_call a attempt e) (fun _ => Inv) (unless_none Inv).
Proof.
  intros Hcall. unfold attempt_except.
  ens_with inv_side inv_out
    ltac:(first [apply back_off_doubles
                |apply (invoke_return_backoff _ Hcall)]).
Qed.

Lemma stream_to_file_body_backoff self_call :
  (forall s, Inv s ->
     unless_returns_none Inv (self_call (restart_arguments a) s).1 (self_call (restart_arguments a) s).2) ->
  forall s, Inv s ->
    unless_returns_none Inv (call (stream_to_file_body self_call srv a) s).1
                 (call (stream_to_file_body self_call srv a) s).2.
Proof.
  intros Hcall. apply ens_call. unfold stream_to_file_body.
  do 4 (apply ens_bind with (mid := fun _ => Inv);
        [ens_with inv_side inv_out fail|intros ?]).
  apply ens_bind with (mid := fun _ => Inv).
  - apply ens_for_range with (Qb := unless_none Inv).
    + intros i. apply ens_try_except with (Qm := unless_none Inv).
      * apply attempt_try_backoff.
      * intros e _. apply attempt_except_backoff, Hcall.
      * intros [[p|]| |e] s Hs; simpl; auto.
    + auto.
    + intros [[p|]| |e] s Hs Hx; simpl; auto.
  - intros _. apply ens_bind with (mid := fun _ _ => True).
    + apply ens_modify. auto.
    + intros _. apply ens_ret. simpl. auto.
Qed.

End Stream.

(** [get_bytes] and [get_string] keep it however they end. *)
Lemma get_content_backoff {T} srv u (convert : bytes -> M (option T) T) :
  (forall data, ensures Inv (convert data) (fun _ => Inv) (fun _ => Inv)) ->
  ensures Inv (get_content srv u convert) (fun _ => Inv) (fun _ => Inv).
Proof.
  intros Hconvert. unfold get_content.
  ens_with inv_side inv_out fail.
  apply ens_for_range with (Qb := fun _ => Inv); auto.
  intros i.
  ens_with inv_side inv_out ltac:(first [apply back_off_doubles|apply Hconvert]).
Qed.

End Backoff.

Lemma doubled_refl s : doubled (log s) (retry_delay (self s)) s.
Proof. exists []. rewrite app_nil_r. simpl. split; [reflexivity|lia]. Qed.

(** A call of [stream_to_file] that returns a path leaves the delay
    doubled once for every pause it made: it is not restored. *)
Lemma stream_to_file_success_delay srv a s :
  unless_returns_none (doubled (log s) (retry_delay (self s)))
    (stream_to_file srv a s).1 (stream_to_file srv a s).2.
Proof.
  unfold stream_to_file. apply stream_to_file_body_backoff; [|apply doubled_refl].
  intros s' Hs'. unfold stream_to_file_restart.
  apply stream_to_file_body_backoff; [|exact Hs'].
  intros s2 Hs2. exact Hs2.
Qed.

Lemma get_bytes_delay srv u s :
  doubled (log s) (retry_delay (self s)) (get_bytes srv u s).2.
Proof.
  unfold get_bytes. rewrite call_state.
  pose proof (get_content_backoff (log s) (retry_delay (self s)) srv u ret) as H.
  specialize (H (fun data => ens_ret _ _ _ _ (fun _ Hs => Hs)) s (doubled_refl s)).
  destruct (get_content srv u ret s) as [[v|x] s']; exact H.
Qed.

Lemma get_string_delay decode srv u s :
  doubled (log s) (retry_delay (self s)) (get_string decode srv u s).2.
Proof.
  unfold get_string. rewrite call_state.
  match goal with |- context [get_content srv u ?c] =>
    pose proof (get_content_backoff (log s) (retry_delay (self s)) srv u c) as H
  end.
  match type of H with ?P -> _ =>
    assert (Hc : P) by (intros data; destruct (decode data);
                        [apply ens_ret|apply ens_leave]; auto)
  end.
  specialize (H Hc s (doubled_refl s)).
  match goal with |- context [get_content srv u ?c s] =>
    destruct (get_content srv u c s) as [[v|x] s']; exact H
  end.
Qed.

(** After a size mismatch the file is gone, and every further attempt
    still asks for the range of the call. *)
Lemma mismatch_retry_repeats_range srv a attempt s s1 :
  attempt_try srv a attempt s = (Exits Continue, s1) ->
  disk s1 !! file_path a = None
  /\ attempt < max_retries (self s)
  /\ forall attempt', exists new,
       log (attempt_try srv a attempt' s1).2 = log s1 ++ new
       /\ forall r d, Sent r d ∈ new -> meth r = GET -> range_start r = call_range a.
Proof.
  intros H. destruct (attempt_try_continue _ _ _ _ _ H) as (Hgone & Hleft & _).
  split; [exact Hgone|]. split; [exact Hleft|].
  intros attempt'.
  destruct (attempt_try_log (own_event a) (log s1) a) with (srv := srv)
    (attempt := attempt') (s := s1) as (new & Hlog & Hnew); simpl; auto.
  { apply extends_refl. }
  exists new. split; [exact Hlog|].
  intros r d Hin Hget. rewrite Forall_forall in Hnew.
  specialize (Hnew _ Hin). simpl in Hnew. rewrite Hget in Hnew. exact Hnew.
Qed.

End DownloaderFacts.

(** ** Claims about [Downloader] *)

Module DownloaderClaims.
Import Downloader DownloaderSpec DownloaderFacts DownloadFixtures.
Local Open Scope py_scope.

Ltac by_computation := vm_compute; reflexivity.

(** C5 (the code departs from the claim).  A download resumed at byte 4 of
    a ten-byte resource, whose first response ends three bytes in without
    an error: the file has 7 bytes where 10 were expected and is deleted,
    but the next request asks again for [bytes=4-], now with no file on
    disk; what comes back is written to a new file, every later attempt
    does the same, and the call gives up with only the last six bytes of
    the resource on disk. *)
Theorem size_mismatch_retry_keeps_range :
  let run := stream_to_file short_once (download 4 10) (fresh partial) in
  range_at (log run.2) 0 = Some 4
  /\ on_disk_at (log run.2) 0 "f" = Some 4
  /\ range_at (log run.2) 1 = Some 4
  /\ on_disk_at (log run.2) 1 "f" = None
  /\ Forall (fun r => range_start r = Some 4) (requests (log run.2))
  /\ run.1 = Returns None
  /\ disk run.2 !! "f" = Some (drop 4 resource).
Proof.
  repeat apply conj; try by_computation.
  vm_compute. repeat constructor.
Qed.



(** C7 (the code departs from the claim).  The first request times out,
    the second succeeds: [stream_to_file] returns the path, [get_bytes] and
    [get_string] return the content, and each leaves [retry_delay] at 6,
    twice the seed of 3; the next call starts from there. *)
Theorem retry_delay_survives_success :
  let streamed := stream_to_file times_out_once (download 0 (-1)) (fresh ∅) in
  let fetched := get_bytes times_out_once "u" (fresh ∅) in
  let text := get_string ascii_decode times_out_once "u" (fresh ∅) in
  let again := get_bytes (fun _ _ => Failed Timeout) "u" fetched.2 in
  retry_delay (self (fresh ∅)) = 3
  /\ (streamed.1 = Returns (Some "f") /\ retry_delay (self streamed.2) = 6)
  /\ (fetched.1 = Returns (Some resource) /\ retry_delay (self fetched.2) = 6)
  /\ (text.1 = Returns (Some "0123456789") /\ retry_delay (self text.2) = 6)
  /\ drop 3 (log again.2) !! 1%nat = Some (Slept 6).
Proof. repeat apply conj; by_computation. Qed.

(** C8.  When an attempt of a resuming call raises the HTTP error 416, the
    destination file is removed and the method calls itself with
    [resume_bytes = 0], [total_bytes = -1] and [allow_resume = False]; what
    that call returns is what the outer call returns.  The second call
    sends [GET] requests without a range only, and, resume being disabled,
    never calls the method again.  On the first attempt this is the whole
    call. *)
Theorem range_not_satisfiable_fallback (srv : server) (a : arguments) (attempt : Z)
    (s s1 : state) :
  resuming a = true ->
  attempt_try srv a attempt s = (Exits (Raise (HTTPError 416)), s1) ->
  let a' := restart_arguments a in
  let s2 := set_disk (delete (file_path a)) s1 in
  let restarted := stream_to_file_restart srv a' s2 in
  try_except (attempt_try srv a attempt) (fun _ => true)
             (attempt_except (stream_to_file_restart srv) a attempt) s
    = (match restarted.1 with
       | Returns v => Exits (ReturnWith v)
       | Raises e => Exits (Raise e)
       end, restarted.2)
  /\ disk s2 !! file_path a = None
  /\ (resume_bytes a' = 0 /\ allow_resume a' = false)
  /\ (exists new, log restarted.2 = log s2 ++ new
                  /\ forall r d, Sent r d ∈ new -> meth r = GET /\ range_start r = None)
  /\ (forall f, restarted = call (stream_to_file_body f srv a') s2)
  /\ (attempt = 0 -> 0 <= max_retries (self s) -> stream_to_file srv a s = restarted).
Proof.
  intros Hres Htry a' s2 restarted.
  assert (Hstep :
    try_except (attempt_try srv a attempt) (fun _ => true)
               (attempt_except (stream_to_file_restart srv) a attempt) s
    = (match restarted.1 with
       | Returns v => Exits (ReturnWith v)
       | Raises e => Exits (Raise e)
       end, restarted.2)).
  { unfold try_except. rewrite Htry. unfold attempt_except.
    rewrite Hres. cbn [bool_decide decide_rel andb].
    unfold bind, max_retries_, exists_, gets, when, remove, modify, invoke, return_, leave, ret.
    rewrite bool_decide_eq_true_2 by reflexivity. cbn [andb].
    fold (restart_arguments a). fold a'.
    assert (Hs2 : (if bool_decide (is_Some (disk s1 !! file_path a))
                   then set_disk (delete (file_path a)) s1 else s1) = s2).
    { unfold s2. case_bool_decide as Hp; [reflexivity|].
      destruct s1 as [slf dsk lg pl]. unfold set_disk. simpl in *. f_equal.
      symmetry. apply delete_id. destruct (dsk !! file_path a); [|reflexivity].
      exfalso. apply Hp. eauto. }
    destruct (bool_decide (is_Some (disk s1 !! file_path a))); simpl in *;
      rewrite Hs2; fold restarted; destruct restarted as [[v|e] s3]; reflexivity. }
  split; [exact Hstep|].
  split; [apply lookup_delete_eq|].
  split; [split; reflexivity|].
  split.
  { destruct (stream_to_file_restart_log srv a' (log s2) s2 (extends_refl _ _))
      as (new & Hlog & Hnew).
    exists new. split; [exact Hlog|]. intros r d Hin.
    rewrite Forall_forall in Hnew. specialize (Hnew _ Hin). simpl in Hnew.
    destruct (meth r); [auto|]. destruct Hnew as [Hn _]. discriminate. }
  split.
  { intros f. unfold restarted, stream_to_file_restart, call.
    rewrite (stream_to_file_body_no_resume _ f); reflexivity. }
  intros -> Hmax.
  unfold stream_to_file, call, stream_to_file_body.
  unfold bind at 1. unfold exists_ at 1. unfold gets at 1.
  assert (Hnz : bool_decide (resume_bytes a = 0) = false).
  { apply bool_decide_eq_false_2. unfold resuming in Hres.
    apply andb_true_iff in Hres as [_ Hpos]. apply Z.ltb_lt in Hpos. lia. }
  rewrite Hnz, andb_false_r. cbn [when].
  unfold bind at 1. unfold ret at 1.
  unfold bind at 1. unfold retry_delay_ at 1. unfold gets at 1.
  unfold bind at 1. unfold max_retries_ at 1. unfold gets at 1.
  destruct (Z.to_nat (max_retries (self s) + 1)) as [|n] eqn:Hn; [lia|].
  cbn [for_range]. unfold bind at 1. unfold bind at 1. unfold iteration.
  rewrite Hstep. destruct restarted as [[v|e] s3]; reflexivity.
Qed.

Lemma range_not_satisfiable_fallback_witness :
  let s := fresh partial in
  let a := download 4 10 in
  let s1 := (attempt_try refuses_ranges a 0 s).2 in
  let restarted :=
    stream_to_file_restart refuses_ranges (restart_arguments a)
                           (set_disk (delete (file_path a)) s1) in
  stream_to_file refuses_ranges a s = restarted
  /\ restarted.1 = Returns (Some "f")
  /\ disk restarted.2 !! "f" = Some resource
  /\ requests (log restarted.2) = [Request GET "u" (Some 4); Request GET "u" None].
Proof.
  intros s a s1 restarted.
  destruct (range_not_satisfiable_fallback refuses_ranges a 0 s s1)
    as (_ & _ & _ & _ & _ & H).
  - by_computation.
  - by_computation.
  - split; [apply H; [reflexivity|vm_compute; discriminate]|].
    repeat apply conj; by_computation.
Defined.

End DownloaderClaims.

(** ** More about [verify_chunklist] and the loop that consumes it *)

Module VerificationExtras.
Import FileVerification ChunklistFormat ChunklistErrors MoreFixtures
  VerificationFacts PaddingFacts.

Ltac by_computation := vm_compute; reflexivity.

Ltac fixture_header_ok :=
  unfold header_ok; repeat apply conj;
  first [by_computation | left; by_computation | right; by_computation].

Lemma int_from_bytes_little_range (b : bytes) :
  0 <= int_from_bytes_little b < 256 ^ len b.
Proof.
  induction b as [|x b IH]; simpl.
  - unfold len. simpl. lia.
  - replace (len (x :: b)) with (len b + 1) by (unfold len; simpl; lia).
    rewrite Z.pow_add_r, Z.pow_1_r by (pose proof (len_nonneg b); lia).
    pose proof (byte_to_Z_range x). nia.
Qed.

(** A decoded chunk record: an unsigned 32-bit size and a 32-byte digest. *)
Lemma CHUNK_unpack_range (data : bytes) :
  length data = 36%nat ->
  0 <= (CHUNK_unpack data).1 < 2 ^ 32 /\ length (CHUNK_unpack data).2 = 32%nat.
Proof.
  intros Hlen. unfold CHUNK_unpack, field. simpl fst. simpl snd. split.
  - pose proof (int_from_bytes_little_range (take 4 (drop 0 data))) as H.
    replace (len (take 4 (drop 0 data))) with 4 in H
      by (unfold len; rewrite length_take, length_drop; lia).
    change (256 ^ 4) with (2 ^ 32) in H. exact H.
  - rewrite length_take, length_drop. lia.
Qed.

Lemma read_chunks_yields_range sm : forall n f ctx,
  Forall (fun y => 0 <= y.1 < 2 ^ 32 /\ length y.2 = 32%nat)
         (yields (read_chunks n sm f ctx)).
Proof.
  induction n as [|n IH]; intros f ctx; simpl.
  - rewrite yields_verify_signature. constructor.
  - destruct (read_bytes CHUNK_size f) as [data f'].
    case_decide as Hd; simpl; [constructor|].
    constructor; [|apply IH].
    apply CHUNK_unpack_range. unfold len, CHUNK_size in Hd. lia.
Qed.

(** X4.  Whatever the manifest, every record [verify_chunklist] yields has a
    size that fits 32 bits and a digest of 32 bytes. *)
Theorem yielded_records_well_formed (fs : filesystem) (path : string) :
  Forall (fun y => 0 <= y.1 < 2 ^ 32 /\ length y.2 = 32%nat)
         (yields (verify_chunklist fs path)).
Proof.
  unfold verify_chunklist.
  destruct (negb (path_exists fs path)); [constructor|].
  destruct (open_rb fs path) as [f|e]; [|constructor].
  unfold verify_open_chunklist.
  destruct (read_bytes CHUNKLIST_HEADER_size (unread f)) as [data rest].
  repeat (case_decide; [constructor|]).
  apply read_chunks_yields_range.
Qed.

(** X1.  A manifest of fewer than 36 bytes, the empty file among them, is
    rejected for its header before anything is yielded. *)
Theorem short_header_rejected (fs : filesystem) (path : string) (data : bytes) :
  fs !! path = Some (File data) ->
  (length data < 36)%nat ->
  verify_chunklist fs path = Throw (ValueError "Invalid chunklist: header too short").
Proof.
  intros Hfs Hlen. rewrite (verify_chunklist_file _ _ _ Hfs).
  unfold verify_open_chunklist, CHUNKLIST_HEADER_size.
  destruct (read_bytes 36 data) as [got rest] eqn:R.
  apply read_bytes_spec in R as [Happ _].
  rewrite decide_True; [reflexivity|].
  assert (length got <= length data)%nat by (rewrite <- Happ, length_app; lia).
  unfold len. lia.
Qed.

Lemma short_header_rejected_witness :
  verify_chunklist {[ "empty" := File [] ]} "empty"
  = Throw (ValueError "Invalid chunklist: header too short").
Proof.
  apply (short_header_rejected {[ "empty" := File [] ]} "empty" []).
  - by_computation.
  - simpl. lia.
Defined.

(** The records read from what follows the header: as many as the header
    counts, or as many as are complete. *)
Lemma read_chunks_yields sm : forall n f ctx,
  yields (read_chunks n sm f ctx)
  = map CHUNK_unpack (records (min n (length f / 36)) f).
Proof.
  induction n as [|n IH]; intros f ctx; cbn [read_chunks].
  - rewrite yields_verify_signature. reflexivity.
  - destruct (read_bytes CHUNK_size f) as [data f'] eqn:R.
    pose proof (read_bytes_spec _ _ _ _ R) as [Happ Hle].
    specialize (Hle ltac:(unfold CHUNK_size; lia)).
    case_decide as Hd.
    + (* fewer than 36 bytes are left *)
      assert (Hshort : len data < CHUNK_size) by lia.
      pose proof (read_bytes_short _ _ _ _ R Hshort) as ->.
      rewrite app_nil_r in Happ. subst f.
      unfold len, CHUNK_size in Hshort.
      rewrite Nat.div_small by lia. reflexivity.
    + unfold len, CHUNK_size in Hd.
      assert (Hlen : length data = 36%nat) by lia.
      subst f. rewrite length_app, Hlen.
      replace ((36 + length f') / 36)%nat with (S (length f' / 36))
        by (change (36 + length f')%nat with (1 * 36 + length f')%nat;
            rewrite Nat.div_add_l by lia; reflexivity).
      rewrite <- Nat.succ_min_distr. cbn [records map yields].
      rewrite take_app_length', drop_app_length' by congruence.
      rewrite IH. reflexivity.
Qed.

(** X2.  With a good header, [verify_chunklist] yields the records of the
    chunk table in file order, as many as the header counts or as many as
    are complete, before it looks at the signature: what follows the table,
    a valid signature or anything else, does not change what is yielded. *)
Theorem records_yielded_before_signature (fs : filesystem) (path : string)
    (hd rest : bytes) :
  fs !! path = Some (File (hd ++ rest)) ->
  length hd = 36%nat ->
  header_ok (CHUNKLIST_HEADER_unpack hd) ->
  yields (verify_chunklist fs path)
  = map CHUNK_unpack
      (records (min (Z.to_nat (chunk_count (CHUNKLIST_HEADER_unpack hd)))
                    (length rest / 36)) rest).
Proof.
  intros Hfs Hlen Hok.
  rewrite (verify_chunklist_file _ _ _ Hfs), (verify_open_header_ok _ _ Hlen Hok).
  apply read_chunks_yields.
Qed.

Lemma records_yielded_before_signature_witness :
  yields (verify_chunklist Fixtures.fs "hashed.chunklist")
  = [(3, SHA256.sha256 Fixtures.abc)]
  /\ ending (verify_chunklist Fixtures.fs "hashed.chunklist")
     = Raised (RuntimeError "Chunklist missing digital signature").
Proof.
  split.
  - rewrite (records_yielded_before_signature Fixtures.fs "hashed.chunklist"
               (Fixtures.header_1 2) (Fixtures.table_abc ++ Fixtures.hash_abc ++ [])).
    + by_computation.
    + by_computation.
    + by_computation.
    + fixture_header_ok.
  - by_computation.
Defined.

Lemma read_chunks_short sm : sm = 1 \/ sm = 2 -> forall n f ctx,
  (length f < 36 * n + signature_size sm)%nat ->
  exists msg, ending (read_chunks n sm f ctx) = Raised (ValueError msg)
              /\ msg ∈ truncation_errors.
Proof.
  intros Hsm n. induction n as [|n IH]; intros f ctx Hlen; simpl.
  - unfold verify_signature.
    destruct Hsm as [-> | ->].
    + change (signature_size 1) with 256%nat in Hlen.
      rewrite decide_True by reflexivity.
      destruct (read_bytes 256 f) as [data f'] eqn:R.
      apply read_bytes_spec in R as [Happ _].
      rewrite decide_True.
      * eexists. split; [reflexivity|]. unfold truncation_errors. in_list.
      * assert (length data <= length f)%nat by (rewrite <- Happ, length_app; lia).
        unfold len. lia.
    + change (signature_size 2) with 32%nat in Hlen.
      rewrite decide_False by lia. rewrite decide_True by reflexivity.
      destruct (read_bytes 32 f) as [data f'] eqn:R.
      apply read_bytes_spec in R as [Happ _].
      rewrite decide_True.
      * eexists. split; [reflexivity|]. unfold truncation_errors. in_list.
      * intros Heq. apply (f_equal length) in Heq. rewrite sha256_length in Heq.
        assert (length data <= length f)%nat by (rewrite <- Happ, length_app; lia).
        lia.
  - destruct (read_bytes CHUNK_size f) as [data f'] eqn:R.
    apply read_bytes_spec in R as [Happ _].
    case_decide as Hd.
    + eexists. split; [reflexivity|]. unfold truncation_errors. in_list.
    + simpl. apply IH. unfold len, CHUNK_size in Hd.
      rewrite <- Happ, length_app in Hlen. lia.
Qed.

(** X3.  A manifest with a good header that ends before its chunk table
    and signature region are complete never ends normally: it raises a
    [ValueError], for the truncated table, the truncated signature, or the
    hash that cannot match. *)
Theorem truncated_manifest_rejected (fs : filesystem) (path : string)
    (hd rest : bytes) :
  fs !! path = Some (File (hd ++ rest)) ->
  length hd = 36%nat ->
  header_ok (CHUNKLIST_HEADER_unpack hd) ->
  (length rest < 36 * Z.to_nat (chunk_count (CHUNKLIST_HEADER_unpack hd))
                 + signature_size (signature_method (CHUNKLIST_HEADER_unpack hd)))%nat ->
  exists msg, ending (verify_chunklist fs path) = Raised (ValueError msg)
              /\ msg ∈ truncation_errors.
Proof.
  intros Hfs Hlen Hok Hshort.
  rewrite (verify_chunklist_file _ _ _ Hfs), (verify_open_header_ok _ _ Hlen Hok).
  apply read_chunks_short; [|exact Hshort].
  destruct Hok as (_ & _ & _ & _ & Hsm & _). exact Hsm.
Qed.

Lemma truncated_manifest_rejected_witness :
  exists msg,
    ending (verify_chunklist cut_short "cut.chunklist") = Raised (ValueError msg)
    /\ msg ∈ truncation_errors.
Proof.
  apply (truncated_manifest_rejected cut_short "cut.chunklist"
           (Fixtures.header_1 2) (Fixtures.table_abc ++ take 16 Fixtures.hash_abc)).
  - by_computation.
  - by_computation.
  - fixture_header_ok.
  - vm_compute. lia.
Defined.

(** X5.  The loop of [verify_file_against_chunklist] runs to its end only
    if the generator ended normally and the bytes it took from the target
    are, record by record, of the yielded sizes and SHA-256 digests. *)
Theorem loop_completes_only_on_match (g : generator (Z * bytes)) : forall f f',
  for_chunks g f = LoopDone f' ->
  ending g = Ok tt
  /\ exists chunks,
       unread f = concat chunks ++ unread f'
       /\ yields g = map (fun c => (len c, SHA256.sha256 c)) chunks.
Proof.
  induction g as [[size hash] next IH| |e0]; intros f f' H; simpl in *.
  - unfold read in H. destruct (closed f); [discriminate|].
    destruct (read_bytes size (unread f)) as [data rest] eqn:R.
    case_decide as Hsize; [discriminate|].
    case_decide as Hhash; [discriminate|].
    apply IH in H as (Hend & chunks & Hcat & Hy). simpl in Hcat.
    split; [exact Hend|]. exists (data :: chunks). simpl.
    apply read_bytes_spec in R as [Happ _].
    rewrite <- Happ, Hcat, Hy, app_assoc. split; [reflexivity|]. congruence.
  - injection H as <-. split; [reflexivity|]. exists []. split; reflexivity.
  - discriminate.
Qed.

Lemma loop_completes_only_on_match_witness :
  let g := Yield (3, SHA256.sha256 Fixtures.abc) Stop in
  ending g = Ok tt
  /\ exists chunks,
       Fixtures.abc = concat chunks ++ []
       /\ yields g = map (fun c => (len c, SHA256.sha256 c)) chunks.
Proof.
  apply (loop_completes_only_on_match (Yield (3, SHA256.sha256 Fixtures.abc) Stop)
           (FileObj Fixtures.abc false) (FileObj [] false)).
  by_computation.
Defined.

End VerificationExtras.

(** ** The hash of a file *)

Module HashExtras.
Import FileHashes HashFixtures.

Ltac by_computation := vm_compute; reflexivity.








End HashExtras.

(** ** More about [Downloader] *)

Module DownloaderExtras.
Import Downloader DownloaderSpec DownloaderRuns DownloaderFacts DownloadFixtures
  MoreDownloadFixtures.
Local Open Scope py_scope.

Ltac by_computation := vm_compute; reflexivity.

(** Unfolds the statements of a body down to functions of the state. *)
Ltac unfold_prims :=
  unfold exists_, getsize, remove, open_w, write, sleep, back_off, retry_delay_,
         max_retries_, total_, when, return_, continue, raise;
  unfold bind, gets, modify, ret, leave.

(** A destination that exists while [resume_bytes] is 0, with no window
    to ask or with the dialog declined. *)
Lemma existing_file_refused (srv : server) (a : arguments) (s : state) :
  is_Some (disk s !! file_path a) ->
  resume_bytes a = 0 ->
  parent_window a = None \/ parent_window a = Some false ->
  stream_to_file srv a s = (Returns None, s).
Proof.
  intros Hfile Hzero Hwin.
  unfold stream_to_file, call, stream_to_file_body.
  unfold bind at 1. unfold exists_ at 1. unfold gets at 1.
  rewrite bool_decide_eq_true_2 by exact Hfile.
  rewrite bool_decide_eq_true_2 by exact Hzero.
  cbn [andb when]. unfold bind at 1.
  destruct Hwin as [-> | ->]; reflexivity.
Qed.

(** X6.  A destination that exists while [resume_bytes] is 0 is never
    overwritten without consent: with no window to ask, or with the dialog
    declined, [stream_to_file] returns [None] and changes nothing, neither
    the disk nor the log nor the downloader. *)
Theorem existing_file_not_overwritten (srv : server) (a : arguments) (s : state) :
  is_Some (disk s !! file_path a) ->
  resume_bytes a = 0 ->
  parent_window a = None \/ parent_window a = Some false ->
  stream_to_file srv a s = (Returns None, s).
Proof. apply existing_file_refused. Qed.

Lemma existing_file_not_overwritten_witness :
  stream_to_file (fun _ r => Replied (serve r)) (download 0 (-1)) (fresh partial)
  = (Returns None, fresh partial).
Proof.
  apply (existing_file_not_overwritten (fun _ r => Replied (serve r))
           (download 0 (-1)) (fresh partial)).
  - vm_compute. eexists. reflexivity.
  - reflexivity.
  - left. reflexivity.
Defined.

(** X7.  A call whose cancel event is already set returns [None] before
    any request is sent and before the disk is touched. *)
Theorem cancelled_before_start (srv : server) (a : arguments) (s : state)
    (ev : nat -> bool) :
  cancel_event a = Some ev ->
  ev (polls s) = true ->
  let run := stream_to_file srv a s in
  run.1 = Returns None /\ log run.2 = log s /\ disk run.2 = disk s.
Proof.
  intros Hev Hset. cbv zeta.
  unfold stream_to_file, call, stream_to_file_body.
  unfold_prims.
  destruct (bool_decide (is_Some (disk s !! file_path a)) &&
            bool_decide (resume_bytes a = 0));
    destruct (parent_window a) as [[|]|]; cbn [negb]; try (repeat split; reflexivity);
    (destruct (Z.to_nat (max_retries (self s) + 1)) as [|n];
     [repeat split; reflexivity|]);
    cbn [for_range]; unfold iteration, try_except, attempt_try; unfold_prims;
    unfold is_set; rewrite Hev; cbn [polls set_self]; rewrite Hset;
    repeat split; reflexivity.
Qed.


(** *** Running a body step by step *)

Section Steps.
Context {R : Type}.

Lemma bind_normal {A B} (m : M R A) (k : A -> M R B) s a s' :
  m s = (Normal a, s') -> bind m k s = k a s'.
Proof. intros H. unfold bind. rewrite H. reflexivity. Qed.

Lemma bind_exits {A B} (m : M R A) (k : A -> M R B) s x s' :
  m s = (Exits x, s') -> bind m k s = (Exits x, s').
Proof. intros H. unfold bind. rewrite H. reflexivity. Qed.


Lemma try_except_returns {A} (m : M R A) catches handler s v s' :
  m s = (Exits (ReturnWith v), s') ->
  try_except m catches handler s = (Exits (ReturnWith v), s').
Proof. intros H. unfold try_except. rewrite H. reflexivity. Qed.

Lemma for_range_returns (body : Z -> M R unit) n start s v s' :
  body start s = (Exits (ReturnWith v), s') ->
  for_range (S n) start body s = (Exits (ReturnWith v), s').
Proof. intros H. cbn [for_range]. unfold bind, iteration. rewrite H. reflexivity. Qed.

Lemma for_range_raises (body : Z -> M R unit) n start s e s' :
  body start s = (Exits (Raise e), s') ->
  for_range (S n) start body s = (Exits (Raise e), s').
Proof. intros H. cbn [for_range]. unfold bind, iteration. rewrite H. reflexivity. Qed.


End Steps.

(** The status of a response as [raise_for_status] sees it. *)
Lemma raise_for_status_ok {R} resp s :
  status_ok resp -> raise_for_status (R := R) resp s = (Normal tt, s).
Proof.
  intros Hst. unfold raise_for_status, status_ok in *.
  replace ((400 <=? status_code resp) && (status_code resp <? 600)) with false;
    [reflexivity|].
  symmetry. apply andb_false_iff.
  destruct (Z.leb_spec 400 (status_code resp)); [right|left; reflexivity].
  apply Z.ltb_ge. lia.
Qed.


Lemma cancelled_before_start_witness :
  let run := stream_to_file works (watched 0 (-1) (fun _ => true)) (fresh ∅) in
  run.1 = Returns None /\ log run.2 = [] /\ disk run.2 = ∅.
Proof.
  apply (cancelled_before_start works (watched 0 (-1) (fun _ => true)) (fresh ∅)
           (fun _ => true)); reflexivity.
Defined.


(** What the body does once the check of the destination lets it pass. *)
Lemma stream_to_file_body_passes f srv a s :
  may_write a s ->
  stream_to_file_body f srv a s
  = bind (for_range (Z.to_nat (max_retries (self s) + 1)) 0
            (fun attempt => try_except (attempt_try srv a attempt) (fun _ => true)
                                       (attempt_except f a attempt)))
         (fun _ => bind (modify (set_self (with_retry_delay (retry_delay (self s)))))
                        (fun _ => ret None)) s.
Proof.
  intros Hw. unfold stream_to_file_body.
  unfold bind at 1. unfold exists_ at 1. unfold gets at 1.
  assert (Hpass :
    when (R := option string)
         (bool_decide (is_Some (disk s !! file_path a)) && bool_decide (resume_bytes a = 0))
         (match parent_window a with
          | Some overwrite => if negb overwrite then return_ None else ret tt
          | None => return_ None
          end) s = (Normal tt, s)).
  { destruct Hw as [H|[H|H]].
    - rewrite H. rewrite bool_decide_eq_false_2 by (intros [? ?]; discriminate). reflexivity.
    - rewrite (bool_decide_eq_false_2 _ H), andb_false_r. reflexivity.
    - rewrite H. destruct (_ && _); reflexivity. }
  unfold bind at 1. rewrite Hpass.
  reflexivity.
Qed.



(** X9.  [get_string] does not retry a body it cannot decode: the error of
    [decode] is not one of [requests], so it leaves the loop and the
    method on the first attempt, after one request and no pause. *)
Theorem undecodable_body_raises (decode : bytes -> option string) (srv : server)
    (u : string) (s : state) (resp : response) :
  0 <= max_retries (self s) ->
  srv (length (requests (log s))) (plain_get u) = Replied resp ->
  body_end resp = EndOfBody ->
  status_ok resp ->
  decode (concat (body resp)) = None ->
  get_string decode srv u s
  = (Raises OtherException, add_event (Sent (plain_get u) (disk s)) s).
Proof.
  intros Hmax Hsrv Hend Hst Hdec.
  unfold get_string, call, get_content.
  erewrite bind_normal by reflexivity. cbn beta.
  destruct (Z.to_nat (max_retries (self s) + 1)) as [|n] eqn:Hn; [lia|].
  rewrite (bind_exits _ _ s (Raise OtherException)
             (add_event (Sent (plain_get u) (disk s)) s)); [reflexivity|].
  apply for_range_raises.
  unfold try_except.
  erewrite bind_normal by (unfold send; fold (plain_get u); rewrite Hsrv; reflexivity).
  erewrite bind_normal by (unfold content; rewrite Hend; reflexivity).
  erewrite bind_normal by (apply raise_for_status_ok, Hst).
  rewrite Hdec. reflexivity.
Qed.


Lemma undecodable_body_raises_witness :
  get_string ascii_decode garbled "u" (fresh ∅)
  = (Raises OtherException, add_event (Sent (plain_get "u") ∅) (fresh ∅)).
Proof.
  apply (undecodable_body_raises ascii_decode garbled "u" (fresh ∅)
           {| status_code := 200; content_length := Integer 1;
              body := [[xff]]; body_end := EndOfBody |}).
  - simpl. lia.
  - reflexivity.
  - reflexivity.
  - unfold status_ok. simpl. lia.
  - by_computation.
Defined.

(** *** The attempts of [get_bytes] and [get_string] *)

Lemma requests_app l1 l2 : requests (l1 ++ l2) = requests l1 ++ requests l2.
Proof. unfold requests. apply omap_app. Qed.


Section GetContent.
Context {T : Type} (srv : server) (u : string) (convert : bytes -> M (option T) T).

Let attempt_body (attempt : Z) : M (option T) unit :=
  try_except
    (bind (send srv (Request GET u None)) (fun req =>
     bind (content req) (fun data =>
     bind (raise_for_status req) (fun _ =>
     bind (convert data) (fun v => return_ (Some v))))))
    is_RequestException
    (fun _ =>
       bind max_retries_ (fun m =>
       if attempt <? m then back_off else return_ None)).







End GetContent.







(** *** An attempt that goes through *)

Lemma len_app_Z (b1 b2 : bytes) : len (b1 ++ b2) = len b1 + len b2.
Proof. unfold len. rewrite length_app. lia. Qed.

Lemma written_nil a s :
  is_Some (disk s !! file_path a) -> written a [] s = s.
Proof.
  intros [c Hc]. unfold written. unfold bytes in *. rewrite Hc.
  cbn [default from_option id concat progress_reports].
  rewrite app_nil_r, insert_id by exact Hc.
  change (len []) with 0. rewrite Z.add_0_r.
  destruct s as [[m d t b h] dsk lg pl].
  cbn [self disk log polls bytes_downloaded with_bytes_downloaded
       max_retries retry_delay total resume_header].
  destruct (callback a); rewrite app_nil_r; reflexivity.
Qed.

Lemma write_chunks_written a :
  cancel_event a = None ->
  forall chunks s,
    is_Some (disk s !! file_path a) ->
    write_chunks a chunks EndOfBody s = (Normal tt, written a chunks s).
Proof.
  intros Hc. induction chunks as [|chunk chunks IH]; intros s Hfile.
  - rewrite written_nil by exact Hfile. reflexivity.
  - cbn [write_chunks]. rewrite Hc. unfold is_set.
    erewrite bind_normal by reflexivity.
    erewrite bind_normal by reflexivity.
    destruct Hfile as [c Hfile].
    case_bool_decide as Hchunk.
    + cbn [when]. destruct (callback a) eqn:Hcb; cbn [when];
        (erewrite bind_normal by reflexivity);
        (rewrite IH by
           (cbn [disk set_disk set_self add_event]; rewrite lookup_insert_eq; eauto));
        f_equal; unfold written; unfold bytes in *; rewrite Hcb;
        cbn [concat progress_reports]; rewrite ?bool_decide_eq_true_2 by exact Hchunk;
        cbn [self disk log polls bytes_downloaded total with_bytes_downloaded
             max_retries retry_delay resume_header set_disk set_self add_event];
        rewrite Hfile, lookup_insert_eq, insert_insert_eq; cbn [default from_option id];
        rewrite len_app_Z, <- ?app_assoc, Z.add_assoc;
        destruct s as [[m d t b h] dsk lg pl]; reflexivity.
    + cbn [when]. erewrite bind_normal by reflexivity. rewrite IH by eauto.
      f_equal. unfold written. subst chunk.
      cbn [concat progress_reports app].
      rewrite bool_decide_eq_false_2 by (intros H; apply H; reflexivity). reflexivity.
Qed.


Ltac simpl_state :=
  cbn [self disk log polls set_self set_disk add_event
       max_retries retry_delay total bytes_downloaded resume_header
       with_retry_delay with_total with_bytes_downloaded with_resume_header].

(** The first [open] of an attempt leaves the file with what is kept. *)
Lemma open_w_kept a (s s0 : state) :
  disk s0 = disk s ->
  disk (set_disk (fun d =>
          match d !! file_path a with
          | Some old => if resuming a then d else <[file_path a := []]> d
          | None => <[file_path a := []]> d
          end) s0) = <[file_path a := kept a s]> (disk s).
Proof.
  intros Hd. unfold kept. simpl_state. rewrite Hd. unfold bytes in *.
  destruct (_ !! _) as [old|] eqn:E; [|destruct (resuming a); reflexivity].
  destruct (resuming a); [|reflexivity].
  cbn [default from_option id]. rewrite insert_id by exact E. reflexivity.
Qed.

Lemma attempt_try_succeeds srv a attempt s resp :
  cancel_event a = None ->
  total_bytes a <> -1 \/ resuming a = false ->
  srv (length (requests (log s))) (ranged_get a) = Replied resp ->
  status_ok resp ->
  body_end resp = EndOfBody ->
  expected_size a resp <= 0
    \/ len (kept a s ++ concat (body resp)) = expected_size a resp ->
  exists s1,
    attempt_try srv a attempt s = (Exits (ReturnWith (Some (file_path a))), s1)
    /\ disk s1 = <[file_path a := kept a s ++ concat (body resp)]> (disk s)
    /\ log s1 = log s ++ Sent (ranged_get a) (disk s)
                  :: (if callback a
                      then progress_reports (resume_bytes a) (expected_size a resp) (body resp)
                      else [])
    /\ retry_delay (self s1) = retry_delay (self s)
    /\ total (self s1) = expected_size a resp
    /\ bytes_downloaded (self s1) = resume_bytes a + len (concat (body resp)).
Proof.
  intros Hc Hhead Hsrv Hst Hend Hsize.
  assert (Hno : bool_decide (total_bytes a = -1) && resuming a = false).
  { destruct Hhead as [H| ->]; [|apply andb_false_r].
    rewrite bool_decide_eq_false_2 by exact H. reflexivity. }
  unfold attempt_try. rewrite Hc. unfold is_set.
  do 6 (erewrite bind_normal by reflexivity). simpl_state.
  rewrite Hno. cbn [when].
  do 4 (erewrite bind_normal by reflexivity). simpl_state.
  change (Request GET (url a) (if resuming a then Some (resume_bytes a) else None))
    with (ranged_get a).
  erewrite bind_normal by (unfold send; simpl_state; rewrite Hsrv; reflexivity).
  erewrite bind_normal by (apply raise_for_status_ok, Hst).
  erewrite bind_normal by reflexivity. simpl_state.
  match goal with
  | |- context [bind (when ?c ?m) ?k ?s0] =>
      assert (Htotal : exists s1, when (R := option string) c m s0 = (Normal tt, s1)
                /\ disk s1 = disk s
                /\ log s1 = log s ++ [Sent (ranged_get a) (disk s)]
                /\ retry_delay (self s1) = retry_delay (self s)
                /\ total (self s1) = expected_size a resp
                /\ bytes_downloaded (self s1) = resume_bytes a)
  end.
  { unfold expected_size, checked_size.
    destruct (bool_decide (total_bytes a = -1)) eqn:Ht; cbn [when].
    - apply bool_decide_eq_true_1 in Ht.
      destruct (content_length resp); eexists; (split; [reflexivity|]);
        simpl_state; rewrite ?Ht; auto.
    - eexists. split; [reflexivity|]. simpl_state. auto. }
  destruct Htotal as (s1 & Hwhen & Hdisk1 & Hlog1 & Hdelay1 & Htotal1 & Hbytes1).
  erewrite bind_normal by exact Hwhen.
  erewrite bind_normal by reflexivity.
  pose proof (open_w_kept a s s1 Hdisk1) as Hopen.
  match type of Hopen with disk ?s2 = _ => set (s_open := s2) in * end.
  assert (Hfile : disk s_open !! file_path a = Some (kept a s))
    by (rewrite Hopen; apply lookup_insert_eq).
  rewrite Hend.
  erewrite bind_normal by (apply write_chunks_written; [exact Hc|rewrite Hfile; eauto]).
  assert (Hdisk : disk (written a (body resp) s_open)
                  = <[file_path a := kept a s ++ concat (body resp)]> (disk s)).
  { unfold written. simpl_state. unfold bytes in *. rewrite Hfile, Hopen.
    cbn [default from_option id]. apply insert_insert_eq. }
  assert (Hthere : disk (written a (body resp) s_open) !! file_path a
                   = Some (kept a s ++ concat (body resp)))
    by (rewrite Hdisk; apply lookup_insert_eq).
  erewrite bind_normal by reflexivity.
  rewrite bool_decide_eq_true_2 by (unfold bytes in *; rewrite Hthere; eauto).
  erewrite bind_normal by reflexivity.
  erewrite bind_normal by reflexivity.
  assert (Htotal2 : total (self (written a (body resp) s_open)) = expected_size a resp)
    by (unfold written, s_open; simpl_state; exact Htotal1).
  rewrite Htotal2. unfold bytes in *. rewrite Hthere. cbn [from_option].
  replace ((0 <? expected_size a resp) &&
           bool_decide (len (kept a s ++ concat (body resp)) <> expected_size a resp))
    with false.
  2:{ symmetry. apply andb_false_iff. destruct Hsize as [H|H].
      - left. apply Z.ltb_ge. exact H.
      - right. apply bool_decide_eq_false_2. intros Hne. apply Hne, H. }
  eexists. split; [reflexivity|]. split; [exact Hdisk|].
  unfold written, s_open. simpl_state. rewrite Hlog1, Htotal1, Hbytes1, Hdelay1, <- app_assoc.
  auto.
Qed.

Lemma requests_progress from t chunks : requests (progress_reports from t chunks) = [].
Proof.
  revert from. induction chunks as [|c l IH]; intros from; [reflexivity|].
  cbn [progress_reports]. destruct (bool_decide (c <> [])); [|apply IH].
  change (requests (progress_reports (from + len c) t l) = []). apply IH.
Qed.

(** The first attempt decides a call that may write. *)
Lemma first_attempt_returns srv a s v s1 :
  may_write a s ->
  0 <= max_retries (self s) ->
  attempt_try srv a 0 s = (Exits (ReturnWith v), s1) ->
  stream_to_file srv a s = (Returns v, s1).
Proof.
  intros Hw Hmax Htry.
  unfold stream_to_file, call. rewrite stream_to_file_body_passes by exact Hw.
  destruct (Z.to_nat (max_retries (self s) + 1)) as [|n] eqn:Hn; [lia|].
  rewrite (bind_exits _ _ s (ReturnWith v) s1); [reflexivity|].
  apply for_range_returns, try_except_returns, Htry.
Qed.

(** X12.  A download whose first [GET] is answered in full: the
    destination ends up holding what it held before, when the call
    resumes, followed by the body, and nothing otherwise but the body;
    every other file is as it was, the path is returned, and one request
    was sent.  (For a call without a cancel event that sends no [HEAD],
    and a body of the size that was expected.) *)
Theorem answered_download_writes_body (srv : server) (a : arguments) (s : state)
    (resp : response) :
  cancel_event a = None ->
  total_bytes a <> -1 \/ resuming a = false ->
  may_write a s ->
  0 <= max_retries (self s) ->
  srv (length (requests (log s))) (ranged_get a) = Replied resp ->
  status_ok resp ->
  body_end resp = EndOfBody ->
  expected_size a resp <= 0
    \/ len (kept a s ++ concat (body resp)) = expected_size a resp ->
  let run := stream_to_file srv a s in
  run.1 = Returns (Some (file_path a))
  /\ disk run.2 = <[file_path a := kept a s ++ concat (body resp)]> (disk s)
  /\ requests (log run.2) = requests (log s) ++ [ranged_get a]
  /\ retry_delay (self run.2) = retry_delay (self s).
Proof.
  intros Hc Hhead Hw Hmax Hsrv Hst Hend Hsize. cbv zeta.
  destruct (attempt_try_succeeds srv a 0 s resp Hc Hhead Hsrv Hst Hend Hsize)
    as (s1 & Htry & Hdisk & Hlog & Hdelay & _).
  rewrite (first_attempt_returns srv a s _ s1 Hw Hmax Htry). cbn [fst snd].
  split; [reflexivity|]. split; [exact Hdisk|]. split; [|exact Hdelay].
  rewrite Hlog, requests_app. f_equal.
  change (ranged_get a :: requests (if callback a
            then progress_reports (resume_bytes a) (expected_size a resp) (body resp)
            else []) = [ranged_get a]).
  destruct (callback a); rewrite ?requests_progress; reflexivity.
Qed.

Lemma answered_download_writes_body_witness :
  let run := stream_to_file works (download 4 10) (fresh partial) in
  run.1 = Returns (Some "f")
  /\ disk run.2 = <["f" := resource]> partial
  /\ requests (log run.2) = [Request GET "u" (Some 4)].
Proof.
  destruct (answered_download_writes_body works (download 4 10) (fresh partial)
              (serve (ranged_get (download 4 10)))) as (H1 & H2 & H3 & _).
  - reflexivity.
  - left. simpl. lia.
  - right. left. simpl. lia.
  - simpl. lia.
  - reflexivity.
  - unfold status_ok. simpl. lia.
  - reflexivity.
  - right. by_computation.
  - split; [exact H1|]. split; [rewrite H2; by_computation|exact H3].
Defined.

(** X13.  In such a download the callback is told the running count once
    for every chunk that is not empty, starting from [resume_bytes]
    whatever the file held, and always with the same total. *)
Theorem progress_counts_from_resume_bytes (srv : server) (a : arguments) (s : state)
    (resp : response) :
  cancel_event a = None ->
  total_bytes a <> -1 \/ resuming a = false ->
  may_write a s ->
  0 <= max_retries (self s) ->
  srv (length (requests (log s))) (ranged_get a) = Replied resp ->
  status_ok resp ->
  body_end resp = EndOfBody ->
  expected_size a resp <= 0
    \/ len (kept a s ++ concat (body resp)) = expected_size a resp ->
  callback a = true ->
  let run := stream_to_file srv a s in
  log run.2 = log s ++ Sent (ranged_get a) (disk s)
                :: progress_reports (resume_bytes a) (expected_size a resp) (body resp)
  /\ bytes_downloaded (self run.2) = resume_bytes a + len (concat (body resp)).
Proof.
  intros Hc Hhead Hw Hmax Hsrv Hst Hend Hsize Hcb. cbv zeta.
  destruct (attempt_try_succeeds srv a 0 s resp Hc Hhead Hsrv Hst Hend Hsize)
    as (s1 & Htry & _ & Hlog & _ & _ & Hbytes).
  rewrite (first_attempt_returns srv a s _ s1 Hw Hmax Htry). cbn [fst snd].
  rewrite Hcb in Hlog. auto.
Qed.

Lemma progress_counts_from_resume_bytes_witness :
  let run := stream_to_file works (reported 4 10) (fresh partial) in
  log run.2 = [Sent (Request GET "u" (Some 4)) partial;
               Progress 7 10; Progress 10 10]
  /\ bytes_downloaded (self run.2) = 10.
Proof.
  destruct (progress_counts_from_resume_bytes works (reported 4 10) (fresh partial)
              (serve (ranged_get (reported 4 10)))) as (H1 & H2).
  - reflexivity.
  - left. simpl. lia.
  - right. left. simpl. lia.
  - simpl. lia.
  - reflexivity.
  - unfold status_ok. simpl. lia.
  - reflexivity.
  - right. by_computation.
  - reflexivity.
  - split; [rewrite H1; by_computation|rewrite H2; by_computation].
Defined.


(** *** However the server behaves *)

Lemma ens_any {R A} (pre : state -> Prop) (m : M R A) :
  ensures pre m (fun _ _ => True) (fun _ _ => True).
Proof. intros s _. destruct (m s) as [[v|x] s']; exact I. Qed.

(** [back_off] goes on, after a pause, with the delay doubled. *)
Lemma ens_back_off {R} pre (post : unit -> state -> Prop) (Q : exit R -> state -> Prop) :
  (forall s, pre s ->
     post tt (set_self (with_retry_delay (retry_delay (self s) * 2))
                (add_event (Slept (retry_delay (self s))) s))) ->
  ensures pre back_off post Q.
Proof. intros H s Hs. apply H, Hs. Qed.

Section NeverRaises.
Context (srv : server) (a : arguments).

Let anything (s : state) : Prop := True.

(** The method is left by [return] or [continue], not by an exception. *)
Let caught (x : exit (option string)) (s : state) : Prop :=
  match x with
  | Raise _ => False
  | _ => True
  end.

Ltac any_side := intros; exact I.

Lemma invoke_return_caught (f : state -> returned (option string) * state) :
  (forall s, exists v, (f s).1 = Returns v) ->
  ensures anything (v <- invoke f ;; return_ v) (fun _ : unit => anything) caught.
Proof.
  intros Hf s _. unfold bind, invoke, return_, leave.
  destruct (Hf s) as [v Hv]. destruct (f s) as [[v'|e] s']; [exact I|discriminate].
Qed.

Lemma attempt_except_caught self_call attempt e :
  (resuming a = true -> forall s, exists v, (self_call (restart_arguments a) s).1 = Returns v) ->
  ensures anything (attempt_except self_call a attempt e) (fun _ => anything) caught.
Proof.
  intros Hcall. unfold attempt_except.
  ens_with any_side any_side
    ltac:(first
      [ apply ens_back_off; any_side
      | apply invoke_return_caught;
        match goal with
        | H : _ && resuming a = true |- _ =>
            apply andb_true_iff in H as [_ H]; exact (Hcall H)
        end ]).
Qed.

Lemma stream_to_file_body_returns self_call s :
  (resuming a = true -> forall s, exists v, (self_call (restart_arguments a) s).1 = Returns v) ->
  exists v, (call (stream_to_file_body self_call srv a) s).1 = Returns v.
Proof.
  intros Hcall.
  refine (ens_call anything _ (fun r _ => exists v, r = Returns v) _ s I).
  unfold stream_to_file_body.
  do 4 (apply ens_bind with (mid := fun _ => anything);
        [ens_with any_side ltac:(intros; eauto) fail|intros ?]).
  apply ens_bind with (mid := fun _ => anything).
  - apply ens_for_range with (Qb := caught).
    + intros i. apply ens_try_except with (Qm := fun _ _ => True).
      * apply ens_any.
      * intros e _. apply attempt_except_caught, Hcall.
      * intros [v| |e] s0 _; simpl; auto. discriminate.
    + intros; exact I.
    + intros [v| |e] s0 Hx Hne; [eauto|exfalso; apply Hne; reflexivity|destruct Hx].
  - intros _. apply ens_bind with (mid := fun _ => anything).
    + apply ens_modify. any_side.
    + intros _. apply ens_ret. eauto.
Qed.

End NeverRaises.

(** X14.  [stream_to_file] catches whatever an attempt raises: for every
    server, every body that breaks and every header that does not parse,
    the call returns a value and raises nothing, and so does the call it
    makes on a 416. *)
Theorem stream_to_file_never_raises (srv : server) (a : arguments) (s : state) :
  exists v, (stream_to_file srv a s).1 = Returns v.
Proof.
  unfold stream_to_file. apply stream_to_file_body_returns.
  intros _ s'. unfold stream_to_file_restart. apply stream_to_file_body_returns.
  intros Hres. discriminate Hres.
Qed.

Section Complete.
Context (srv : server) (a : arguments).

Let anything (s : state) : Prop := True.

Let good (x : exit (option string)) (s : state) : Prop :=
  match x with
  | ReturnWith v => complete a (Returns v) s
  | _ => True
  end.

Ltac any_side := intros; exact I.
Ltac good_out := intros; exact I.

Lemma write_chunks_good last : forall chunks,
  ensures anything (write_chunks a chunks last) (fun _ => anything) good.
Proof.
  induction chunks as [|chunk chunks IH]; simpl.
  - destruct last; ens_with any_side good_out fail.
  - ens_with any_side good_out fail; apply IH.
Qed.

(** The check that ends an attempt. *)
Lemma size_check_good attempt :
  ensures anything
    (present <- exists_ (file_path a) ;;
     if present then
       actual_size <- getsize (file_path a) ;;
       t <- total_ ;;
       if (0 <? t) && bool_decide (actual_size <> t) then
         m <- max_retries_ ;;
         when (attempt <? m) (remove (file_path a) ;; back_off ;; continue)
       else
         return_ (Some (file_path a))
     else
       return_ None)
    (fun _ : unit => anything) good.
Proof.
  intros s _. unfold_prims.
  case_bool_decide as Hfile; [|exact I].
  destruct (_ && _) eqn:Hcheck.
  - destruct (attempt <? _); exact I.
  - cbn [good complete]. split; [reflexivity|].
    destruct Hfile as [c Hfile]. exists c. split; [exact Hfile|].
    intros Hpos. apply andb_false_iff in Hcheck as [H|H].
    + apply Z.ltb_ge in H. lia.
    + apply bool_decide_eq_false_1 in H. unfold bytes in *. rewrite Hfile in H.
      cbn [from_option] in H. destruct (decide (len c = total (self s))); [assumption|].
      exfalso. apply H. assumption.
Qed.

Lemma attempt_try_good attempt :
  ensures anything (attempt_try srv a attempt) (fun _ => anything) good.
Proof.
  unfold attempt_try.
  ens_with any_side good_out
    ltac:(first [apply size_check_good|apply write_chunks_good
                |apply ens_back_off; any_side]).
Qed.

Lemma invoke_return_good (f : state -> returned (option string) * state) :
  (forall s, complete a (f s).1 (f s).2) ->
  ensures anything (v <- invoke f ;; return_ v) (fun _ : unit => anything) good.
Proof.
  intros Hf s _. unfold bind, invoke, return_, leave.
  specialize (Hf s). destruct (f s) as [[v'|e] s']; [exact Hf|exact I].
Qed.

Lemma attempt_except_good self_call attempt e :
  (forall s, complete a (self_call (restart_arguments a) s).1
                        (self_call (restart_arguments a) s).2) ->
  ensures anything (attempt_except self_call a attempt e) (fun _ => anything) good.
Proof.
  intros Hcall. unfold attempt_except.
  ens_with any_side good_out
    ltac:(first [apply invoke_return_good, Hcall|apply ens_back_off; any_side]).
Qed.

Lemma stream_to_file_body_complete self_call s :
  (forall s, complete a (self_call (restart_arguments a) s).1
                        (self_call (restart_arguments a) s).2) ->
  complete a (call (stream_to_file_body self_call srv a) s).1
             (call (stream_to_file_body self_call srv a) s).2.
Proof.
  intros Hcall.
  refine (ens_call anything _ (complete a) _ s I).
  unfold stream_to_file_body.
  do 4 (apply ens_bind with (mid := fun _ => anything);
        [ens_with any_side good_out fail|intros ?]).
  apply ens_bind with (mid := fun _ => anything).
  - apply ens_for_range with (Qb := good).
    + intros i. apply ens_try_except with (Qm := good).
      * apply attempt_try_good.
      * intros e _. apply attempt_except_good, Hcall.
      * intros [v| |e] s0 Hx; simpl; auto.
    + intros; exact I.
    + intros [v| |e] s0 Hx Hne; simpl; auto.
  - intros _. apply ens_bind with (mid := fun _ => anything).
    + apply ens_modify. any_side.
    + intros _. apply ens_ret. intros; exact I.
Qed.

End Complete.

(** X15.  Whenever [stream_to_file] returns a path, for any server and
    from any state, the path is the destination it was given, the file
    is on disk, and, when a positive total size is known, the file has
    exactly that size. *)
Theorem returned_path_is_complete (srv : server) (a : arguments) (s : state) :
  let run := stream_to_file srv a s in
  forall p, run.1 = Returns (Some p) ->
    p = file_path a
    /\ exists c, disk run.2 !! p = Some c
                 /\ (0 < total (self run.2) -> len c = total (self run.2)).
Proof.
  cbv zeta. intros p Hp.
  assert (H : complete a (stream_to_file srv a s).1 (stream_to_file srv a s).2).
  { unfold stream_to_file. apply stream_to_file_body_complete.
    intros s'. unfold stream_to_file_restart.
    pose proof (stream_to_file_body_complete srv (restart_arguments a)
                  (fun _ s0 => (Raises OtherException, s0)) s' (fun _ => I)) as Hr.
    destruct (call _ s') as [[[q|]|e] s2]; exact Hr. }
  rewrite Hp in H. exact H.
Qed.


Lemma returned_path_is_complete_witness :
  let run := stream_to_file works (download 0 (-1)) (fresh ∅) in
  exists c, disk run.2 !! "f" = Some c
            /\ (0 < total (self run.2) -> len c = total (self run.2)).
Proof.
  apply (returned_path_is_complete works (download 0 (-1)) (fresh ∅) "f").
  by_computation.
Defined.

(** *** The files a call leaves alone *)

Section Frame.
Context (srv : server) (a : arguments) (p : string) (v0 : option bytes).
Hypothesis other : file_path a <> p.

Let kept_ (s : state) : Prop := disk s !! p = v0.

Ltac frame_side :=
  intros; unfold kept_ in *; simpl_state;
  repeat case_match;
  rewrite ?lookup_delete_ne, ?lookup_insert_ne by exact other;
  assumption.

Lemma write_chunks_frame last : forall chunks,
  establishes kept_ kept_ (write_chunks a chunks last).
Proof.
  induction chunks as [|chunk chunks IH]; simpl.
  - destruct last; est_with frame_side.
  - est_with frame_side. apply IH.
Qed.

Lemma attempt_try_frame attempt : establishes kept_ kept_ (attempt_try srv a attempt).
Proof. unfold attempt_try. est_with frame_side. apply write_chunks_frame. Qed.

Lemma attempt_except_frame self_call attempt e :
  (forall s, kept_ s -> kept_ (self_call (restart_arguments a) s).2) ->
  establishes kept_ kept_ (attempt_except self_call a attempt e).
Proof.
  intros Hcall. unfold attempt_except.
  est_with frame_side; apply est_invoke; exact Hcall.
Qed.

Lemma stream_to_file_body_frame self_call :
  (forall s, kept_ s -> kept_ (self_call (restart_arguments a) s).2) ->
  establishes kept_ kept_ (stream_to_file_body self_call srv a).
Proof.
  intros Hcall. unfold stream_to_file_body.
  est_with frame_side.
  apply est_for_range. intros i. apply est_try_except.
  - apply attempt_try_frame.
  - intros e. apply attempt_except_frame, Hcall.
Qed.

End Frame.

(** X16.  [stream_to_file] creates, writes and removes the destination
    only: every other path of the disk holds after the call what it held
    before, whatever the server does. *)
Theorem other_files_untouched (srv : server) (a : arguments) (s : state) (p : string) :
  p <> file_path a ->
  disk (stream_to_file srv a s).2 !! p = disk s !! p.
Proof.
  intros Hp. assert (other : file_path a <> p) by congruence.
  unfold stream_to_file. rewrite call_state.
  apply (stream_to_file_body_frame srv a p (disk s !! p) other); [|reflexivity].
  intros s' Hs'. unfold stream_to_file_restart. rewrite call_state.
  apply (stream_to_file_body_frame srv (restart_arguments a) p (disk s !! p) other);
    [|exact Hs'].
  intros s2 Hs2. exact Hs2.
Qed.


Lemma other_files_untouched_witness :
  disk (stream_to_file works (download 0 (-1)) (fresh bystander)).2 !! "other"
  = Some resource.
Proof.
  rewrite (other_files_untouched works (download 0 (-1)) (fresh bystander) "other").
  - by_computation.
  - simpl. discriminate.
Defined.

(** *** How many requests and pauses a call can make *)

Section Indexed.
Context {R : Type}.




End Indexed.

Section Within.
Context (l0 : list event).










End Within.

Section GetContentBound.
Context {T : Type} (srv : server) (u : string) (convert : bytes -> M (option T) T).
Context (l0 : list event) (m0 : Z).
Hypothesis convert_pure : forall data s,
  (convert data s).2 = s.

Let Inv (r p : Z) (s : state) : Prop := max_retries (self s) = m0 /\ within l0 r p s.



End GetContentBound.




Section StreamBound.
Context (srv : server) (a : arguments) (l0 : list event) (m0 : Z).

Let Inv (r p : Z) (s : state) : Prop := max_retries (self s) = m0 /\ within l0 r p s.













End StreamBound.



End DownloaderExtras.

(** ** The parts of an attempt of [stream_to_file] *)

Module AttemptExtras.
Import Downloader DownloaderSpec DownloaderRuns DownloaderFacts DownloadFixtures
  MoreDownloadFixtures DownloaderExtras.
Local Open Scope py_scope.

Ltac by_computation := vm_compute; reflexivity.

(** Writing no chunk changes nothing. *)
Lemma written_nil' a s :
  is_Some (disk s !! file_path a) -> written a [[]] s = s.
Proof. intros Hfile. rewrite <- (written_nil a s Hfile) at 2. reflexivity. Qed.

Lemma written_cons a chunk chunks s :
  is_Some (disk s !! file_path a) ->
  written a chunks (written a [chunk] s) = written a (chunk :: chunks) s.
Proof.
  intros [c Hfile]. unfold written. simpl_state. unfold bytes in *.
  rewrite Hfile, lookup_insert_eq, insert_insert_eq. cbn [default from_option id concat].
  rewrite !app_nil_r. f_equal.
  - destruct (self s) as [m d t b h]. unfold with_bytes_downloaded.
    cbn [max_retries retry_delay total bytes_downloaded resume_header].
    f_equal. rewrite len_app_Z. lia.
  - rewrite app_assoc. reflexivity.
  - rewrite <- app_assoc. f_equal.
    destruct (callback a); [|reflexivity].
    cbn [progress_reports]. case_bool_decide as Hchunk; [reflexivity|].
    subst chunk. change (len []) with 0. rewrite Z.add_0_r. reflexivity.
Qed.

Lemma requests_sent_reports l r d (reports : bool) from t chunks :
  requests (l ++ Sent r d :: (if reports then progress_reports from t chunks else []))
  = requests l ++ [r].
Proof.
  rewrite requests_app. f_equal.
  change (r :: requests (if reports then progress_reports from t chunks else []) = [r]).
  destruct reports; rewrite ?requests_progress; reflexivity.
Qed.

(** *** The parts of an attempt *)






(** The state after the chunks of a body were written to the open file. *)
Lemma written_opened a chunks s s_open :
  disk s_open = <[file_path a := kept a s]> (disk s) ->
  is_Some (disk s_open !! file_path a)
  /\ disk (written a chunks s_open)
     = <[file_path a := kept a s ++ concat chunks]> (disk s)
  /\ disk (written a chunks s_open) !! file_path a = Some (kept a s ++ concat chunks).
Proof.
  intros Hopen.
  assert (Hfile : disk s_open !! file_path a = Some (kept a s))
    by (rewrite Hopen; apply lookup_insert_eq).
  assert (Hdisk : disk (written a chunks s_open)
                  = <[file_path a := kept a s ++ concat chunks]> (disk s)).
  { unfold written. simpl_state. unfold bytes in *. rewrite Hfile, Hopen.
    cbn [default from_option id]. apply insert_insert_eq. }
  split; [rewrite Hfile; eauto|]. split; [exact Hdisk|].
  rewrite Hdisk. apply lookup_insert_eq.
Qed.











(** *** Attempts that fail and are repeated *)






Section FreshAttempts.
Context (srv : server) (a : arguments)
        (self_call : arguments -> state -> returned (option string) * state).
Hypothesis no_event : cancel_event a = None.
Hypothesis fresh_call : resuming a = false.

Let attempt_body (attempt : Z) : M (option string) unit :=
  try_except (attempt_try srv a attempt) (fun _ => true)
             (attempt_except self_call a attempt).





End FreshAttempts.





(** *** A cancellation while the body arrives *)

Section Watched.
Context (a : arguments) (ev : nat -> bool).
Hypothesis watched_call : cancel_event a = Some ev.

(** The state after the cancel event was read [k] more times. *)
Let polled (k : nat) (s : state) : state :=
  MkState (self s) (disk s) (log s) (polls s + k).

Lemma is_set_polled {R} s :
  is_set (R := R) (cancel_event a) s = (Normal (ev (polls s)), polled 1 s).
Proof. rewrite watched_call. unfold is_set, polled. rewrite Nat.add_1_r. reflexivity. Qed.

(** The event is found set before the chunk of index [i]: the chunks
    before it were written, and the method returns [None]. *)
Lemma write_chunks_cancelled last : forall i chunks s,
  is_Some (disk s !! file_path a) ->
  (forall j, (j < i)%nat -> ev (polls s + j) = false) ->
  ev (polls s + i) = true ->
  (i < length chunks)%nat ->
  write_chunks a chunks last s
  = (Exits (ReturnWith None), polled (S i) (written a (take i chunks) s)).
Proof.
  induction i as [|i IH]; intros chunks s Hfile Hclear Hset Hlen.
  - destruct chunks as [|chunk chunks]; [simpl in Hlen; lia|].
    cbn [write_chunks]. rewrite Nat.add_0_r in Hset.
    erewrite bind_normal by apply is_set_polled. rewrite Hset.
    erewrite bind_exits by reflexivity.
    cbn [take]. rewrite written_nil by exact Hfile. reflexivity.
  - destruct chunks as [|chunk chunks]; [simpl in Hlen; lia|].
    cbn [write_chunks].
    erewrite bind_normal by apply is_set_polled.
    assert (H0 : ev (polls s) = false)
      by (rewrite <- (Nat.add_0_r (polls s)); apply Hclear; lia).
    rewrite H0.
    erewrite bind_normal by reflexivity.
    assert (Hwhen :
              when (R := option string) (bool_decide (chunk <> []))
                (bind (write (file_path a) chunk) (fun _ =>
                 bind (modify (set_self (fun d =>
                         with_bytes_downloaded (bytes_downloaded d + len chunk) d))) (fun _ =>
                 when (callback a)
                   (modify (fun s => add_event (Progress (bytes_downloaded (self s))
                                                         (total (self s))) s)))))
                (polled 1 s) = (Normal tt, polled 1 (written a [chunk] s))).
    { destruct Hfile as [c Hfile]. case_bool_decide as Hchunk.
      - cbn [when]. unfold_prims. f_equal.
        unfold written, polled. unfold bytes in *.
        cbn [concat progress_reports]. rewrite bool_decide_eq_true_2 by exact Hchunk.
        destruct (callback a); unfold add_event, set_self, set_disk; simpl_state;
          rewrite Hfile; cbn [default from_option id]; rewrite !app_nil_r; reflexivity.
      - subst chunk. cbn [when]. rewrite written_nil'; [reflexivity|eauto]. }
    erewrite bind_normal by exact Hwhen.
    rewrite IH.
    + f_equal.
      change (written a (take i chunks) (polled 1 (written a [chunk] s)))
        with (polled 1 (written a (take i chunks) (written a [chunk] s))).
      rewrite written_cons by exact Hfile.
      unfold polled. cbn [self disk log polls take]. f_equal. lia.
    + unfold polled, written. simpl_state. rewrite lookup_insert_eq. eauto.
    + intros j Hj. unfold polled, written. cbn [polls].
      replace (polls s + 1 + j)%nat with (polls s + S j)%nat by lia.
      apply Hclear. lia.
    + unfold polled, written. cbn [polls].
      replace (polls s + 1 + i)%nat with (polls s + S i)%nat by lia. exact Hset.
    + simpl in Hlen. lia.
Qed.

End Watched.


(** X28.  A cancel event that is found set while the body arrives ends the
    call with [None] between two chunks: the chunks that came before stay
    in the file, after what the file held when the call resumes, and the
    file is not removed.  (For a call that sends no [HEAD]; the event is
    read once when the attempt begins, once before the [GET], and once
    before each chunk.) *)
Theorem cancelled_in_mid_stream_keeps_what_arrived (srv : server) (a : arguments)
    (s : state) (ev : nat -> bool) (resp : response) (i : nat) :
  cancel_event a = Some ev ->
  total_bytes a <> -1 \/ resuming a = false ->
  may_write a s ->
  0 <= max_retries (self s) ->
  srv (length (requests (log s))) (ranged_get a) = Replied resp ->
  status_ok resp ->
  (forall j, (j < 2 + i)%nat -> ev (polls s + j)%nat = false) ->
  ev (polls s + (2 + i))%nat = true ->
  (i < length (body resp))%nat ->
  let run := stream_to_file srv a s in
  run.1 = Returns None
  /\ disk run.2 = <[file_path a := kept a s ++ concat (take i (body resp))]> (disk s)
  /\ requests (log run.2) = requests (log s) ++ [ranged_get a]
  /\ retry_delay (self run.2) = retry_delay (self s).
Proof.
  intros Hc Hhead Hw Hmax Hsrv Hst Hclear Hset Hlen. cbv zeta.
  assert (Hno : bool_decide (total_bytes a = -1) && resuming a = false).
  { destruct Hhead as [H| ->]; [|apply andb_false_r].
    rewrite bool_decide_eq_false_2 by exact H. reflexivity. }
  assert (H0 : ev (polls s) = false)
    by (rewrite <- (Nat.add_0_r (polls s)); apply Hclear; lia).
  assert (H1 : ev (S (polls s)) = false)
    by (rewrite <- Nat.add_1_r; apply Hclear; lia).
  assert (Htry : exists s1,
            attempt_try srv a 0 s = (Exits (ReturnWith None), s1)
            /\ disk s1 = <[file_path a := kept a s ++ concat (take i (body resp))]> (disk s)
            /\ requests (log s1) = requests (log s) ++ [ranged_get a]
            /\ retry_delay (self s1) = retry_delay (self s)).
  { unfold attempt_try. rewrite Hc. unfold is_set.
    do 3 (erewrite bind_normal by reflexivity). simpl_state. rewrite H0.
    do 3 (erewrite bind_normal by reflexivity). simpl_state. rewrite Hno. cbn [when].
    do 2 (erewrite bind_normal by reflexivity). simpl_state. rewrite H1.
    do 2 (erewrite bind_normal by reflexivity). simpl_state.
    fold (call_range a). fold (ranged_get a).
    erewrite bind_normal by (unfold send; simpl_state; rewrite Hsrv; reflexivity).
    erewrite bind_normal by (apply raise_for_status_ok, Hst).
    erewrite bind_normal by reflexivity. simpl_state.
    match goal with
    | |- context [bind (when ?c ?m) ?k ?s0] =>
        assert (Htotal : exists s1, when (R := option string) c m s0 = (Normal tt, s1)
                  /\ disk s1 = disk s
                  /\ log s1 = log s ++ [Sent (ranged_get a) (disk s)]
                  /\ retry_delay (self s1) = retry_delay (self s)
                  /\ polls s1 = S (S (polls s)))
    end.
    { destruct (bool_decide (total_bytes a = -1)); cbn [when];
        [destruct (content_length resp)|]; eexists; (split; [reflexivity|]);
        simpl_state; auto. }
    destruct Htotal as (s1 & Hwhen & Hdisk1 & Hlog1 & Hdelay1 & Hpolls1).
    erewrite bind_normal by exact Hwhen.
    erewrite bind_normal by reflexivity.
    pose proof (open_w_kept a s s1 Hdisk1) as Hopen.
    match type of Hopen with disk ?s2 = _ => set (s_open := s2) in * end.
    destruct (written_opened a (take i (body resp)) s s_open Hopen)
      as (Hfile & Hdisk & _).
    erewrite bind_exits.
    2:{ apply (write_chunks_cancelled a ev Hc (body_end resp) i (body resp) s_open Hfile).
        - intros j Hj. unfold s_open. simpl_state. rewrite Hpolls1.
          replace (S (S (polls s)) + j)%nat with (polls s + (2 + j))%nat by lia.
          apply Hclear. lia.
        - unfold s_open. simpl_state. rewrite Hpolls1.
          replace (S (S (polls s)) + i)%nat with (polls s + (2 + i))%nat by lia.
          exact Hset.
        - exact Hlen. }
    eexists. split; [reflexivity|]. simpl_state. split; [exact Hdisk|].
    unfold written, s_open. simpl_state. rewrite Hlog1, Hdelay1. split; [|reflexivity].
    rewrite <- app_assoc. apply requests_sent_reports. }
  destruct Htry as (s1 & Htry & Hdisk & Hreq & Hdelay).
  rewrite (first_attempt_returns srv a s None s1 Hw Hmax Htry). cbn [fst snd]. auto.
Qed.

Lemma cancelled_in_mid_stream_keeps_what_arrived_witness :
  let run := stream_to_file works (watched 0 (-1) (set_from 3)) (fresh ∅) in
  run.1 = Returns None
  /\ disk run.2 = {[ "f" := take 3 resource ]}
  /\ requests (log run.2) = [Request GET "u" None]
  /\ retry_delay (self run.2) = 3.
Proof.
  destruct (cancelled_in_mid_stream_keeps_what_arrived works
              (watched 0 (-1) (set_from 3)) (fresh ∅) (set_from 3)
              (serve (ranged_get (watched 0 (-1) (set_from 3)))) 1)
    as (H1 & H2 & H3 & H4).
  - reflexivity.
  - right. reflexivity.
  - left. by_computation.
  - simpl. lia.
  - reflexivity.
  - unfold status_ok. simpl. lia.
  - intros j Hj. unfold set_from. apply Nat.leb_gt. simpl. lia.
  - reflexivity.
  - vm_compute. lia.
  - split; [exact H1|]. split; [rewrite H2; by_computation|]. split; [exact H3|exact H4].
Defined.

End AttemptExtras.

(** *** [test_url_accessibility] *)

Module AccessibilityExtras.
Import Downloader DownloaderSpec DownloaderRuns DownloadFixtures MoreDownloadFixtures
  Accessibility DownloaderExtras.
Local Open Scope py_scope.

Ltac by_computation := vm_compute; reflexivity.


End AccessibilityExtras.

(** *** [download_prod] *)

Module BackendExtras.
Import Downloader DownloaderSpec DownloaderRuns DownloaderFacts DownloadFixtures
  MoreDownloadFixtures Backend BackendFixtures DownloaderExtras AttemptExtras.

Ltac by_computation := vm_compute; reflexivity.

Lemma not_cancelled_yet (cancel : option (nat -> bool)) s :
  (forall ev, cancel = Some ev -> ev (polls s) = false) ->
  exists s1, cancelled cancel s = (false, s1)
             /\ self s1 = self s /\ disk s1 = disk s /\ log s1 = log s.
Proof.
  intros Hev. unfold cancelled, is_set. destruct cancel as [ev|].
  - rewrite (Hev ev eq_refl). eexists. repeat split; reflexivity.
  - exists s. repeat split; reflexivity.
Qed.

Lemma cancelled_keeps (cancel : option (nat -> bool)) s :
  disk (cancelled cancel s).2 = disk s /\ log (cancelled cancel s).2 = log s.
Proof. unfold cancelled, is_set. destruct cancel; split; reflexivity. Qed.

Section OnePackage.
Context (basename : string -> string) (join : string -> string -> string)
        (is_dmg : string -> bool).
Context (srv : server) (progress_callback : bool) (cancel : option (nat -> bool))
        (dir u : string).

(** The arguments [download_prod] passes for a package. *)
Let package_call (resume_bytes : Z) : arguments :=
  {| url := u; file_path := join dir (basename u); resume_bytes := resume_bytes;
     total_bytes := -1; allow_resume := true; callback := progress_callback;
     cancel_event := cancel; parent_window := None |}.

Lemma dl_list_one : u <> EmptyString -> dl_list is_dmg false [Some u] = [u].
Proof.
  intros Hu. unfold dl_list. cbn [omap list_omap].
  rewrite bool_decide_eq_false_2 by exact Hu. reflexivity.
Qed.

(** The run for one package, when the event is not set at the top of the
    loop. *)
Lemma download_prod_one s :
  u <> EmptyString ->
  (forall ev, cancel = Some ev -> ev (polls s) = false) ->
  exists s1, cancelled cancel s = (false, s1)
    /\ self s1 = self s /\ disk s1 = disk s /\ log s1 = log s
    /\ let resume_bytes := match disk s !! join dir (basename u) with
                           | Some content => len content
                           | None => 0
                           end in
       let streamed := stream_to_file srv (package_call resume_bytes) s1 in
       download_prod basename join is_dmg srv progress_callback cancel dir
         [Some u] false s
       = match streamed.1 with
         | Returns (Some _) => (None, streamed.2)
         | Returns None =>
             (Some (DownloadFailed [basename u]), (cancelled cancel streamed.2).2)
         | Raises _ => (Some (DownloadFailed [basename u]), streamed.2)
         end.
Proof.
  intros Hu Hev. destruct (not_cancelled_yet cancel s Hev) as (s1 & Hc & Hself & Hdisk & Hlog).
  exists s1. repeat (split; [assumption|]). cbv zeta.
  unfold download_prod. rewrite (dl_list_one Hu).
  rewrite bool_decide_eq_false_2 by discriminate.
  cbn [download_loop]. rewrite Hc. rewrite Hdisk. fold (package_call
    match disk s !! join dir (basename u) with
    | Some content => len content
    | None => 0
    end).
  destruct (stream_to_file srv _ s1) as [[[p|]|e] s2]; cbn [fst snd app]; try reflexivity.
  destruct (cancelled cancel s2) as [c s3]. reflexivity.
Qed.

End OnePackage.

(** X22.  A package whose file is on disk with zero length cannot be
    downloaded: [download_prod] passes [resume_bytes = 0] for it and no
    window, [stream_to_file] declines to overwrite, and the package is
    reported as failed without a single request. *)
Theorem empty_file_blocks_download (basename : string -> string)
    (join : string -> string -> string) (is_dmg : string -> bool)
    (srv : server) (progress_callback : bool) (cancel_event : option (nat -> bool))
    (dir u : string) (s : state) :
  u <> EmptyString ->
  (forall ev, cancel_event = Some ev -> ev (polls s) = false) ->
  disk s !! join dir (basename u) = Some [] ->
  let run := download_prod basename join is_dmg srv progress_callback cancel_event dir
               [Some u] false s in
  run.1 = Some (DownloadFailed [basename u])
  /\ log run.2 = log s
  /\ disk run.2 = disk s.
Proof.
  intros Hu Hev Hfile. cbv zeta.
  destruct (download_prod_one basename join is_dmg srv progress_callback cancel_event
              dir u s Hu Hev) as (s1 & _ & _ & Hdisk & Hlog & Hrun).
  cbv zeta in Hrun. rewrite Hrun. unfold bytes in *. rewrite Hfile.
  rewrite existing_file_refused.
  - cbn [fst snd]. destruct (cancelled_keeps cancel_event s1) as [-> ->]. auto.
  - cbn [file_path]. rewrite Hdisk. unfold bytes in *. rewrite Hfile. eauto.
  - reflexivity.
  - left. reflexivity.
Qed.

Lemma empty_file_blocks_download_witness :
  let run := download_prod same_name in_dir no_dmg works true None "dir"
               [Some "a.pkg"] false (fresh leftover) in
  run.1 = Some (DownloadFailed ["a.pkg"])
  /\ log run.2 = []
  /\ disk run.2 = leftover.
Proof.
  apply (empty_file_blocks_download same_name in_dir no_dmg works true None "dir"
           "a.pkg" (fresh leftover)).
  - discriminate.
  - discriminate.
  - by_computation.
Defined.






Section PartialFile.
Context (basename : string -> string) (join : string -> string -> string)
        (is_dmg : string -> bool).
Context (srv : server) (progress_callback : bool) (dir u : string).




End PartialFile.





End BackendExtras.
